(** * pscoverdl: cover downloader for PCSX2 and DuckStation

    A shallow embedding of [src/pscoverdl.py] and the properties of its
    download orchestration: serial extraction, URL derivation, the single
    fetch attempt, the primary pass and the fallback pass.

    Conventions of the model.
    - Python [str] values are [string]s. The regex classes [\w] and [\d]
      are modelled on ASCII characters, where they are [[A-Za-z0-9_]] and
      [[0-9]]; on other characters Python's classes are wider, so what is
      proved about the serials extracted is stated for an ASCII text
      ([ascii_text]).
    - The remote repository is a function from URLs to responses, the
      filesystem a finite map from paths to file contents, and everything
      the program prints or requests is recorded in a trace of events.
    - The tasks handed to the thread pool are run one after the other in
      submission order, each to completion; this is one of the schedules of
      the executor. Progress bars are not recorded.
    - Directories are not represented: a file is there when its path is a
      key of the filesystem, so creating the cover directory changes
      nothing, and writing a file always succeeds. The cover directory is
      given as a normalised path (as [Path] prints it) and has no
      subdirectory named like a cover.
    - The reference datasets, when present, are well formed: every entry
      of [GameIndex.yaml] has a name, every item of [gamedb.json] a serial
      and a name. The [KeyError] a malformed dataset raises is outside the
      model. *)

From stdpp Require Import base decidable option list gmap strings pretty.
From Stdlib Require Import Ascii ZArith Lia.

Local Open Scope Z_scope.
Local Open Scope nat_scope.

(** ** Python string and path operations used by the program *)

Module Str.

(** [c in s] for a single character. *)
Fixpoint contains (c : ascii) (s : string) : bool :=
  match s with
  | EmptyString => false
  | String a s' => if decide (a = c) then true else contains c s'
  end.

(** [str.replace(old, new)] for a non-empty [old]: occurrences are
    replaced from the left and do not overlap. After a replacement the
    remaining [skip] characters of the occurrence are dropped. *)
Fixpoint replace_go (old new : string) (skip : nat) (s : string) : string :=
  match s with
  | EmptyString => EmptyString
  | String c s' =>
      match skip with
      | S k => replace_go old new k s'
      | O =>
          if String.prefix old s
          then new +:+ replace_go old new (String.length old - 1) s'
          else String c (replace_go old new 0 s')
      end
  end.

Definition replace (old new s : string) : string := replace_go old new 0 s.

(** [str.endswith(suf)]. *)
Fixpoint endswith (suf s : string) : bool :=
  if decide (s = suf) then true
  else match s with
       | EmptyString => false
       | String _ s' => endswith suf s'
       end.

(** [str.rfind(c)] for a single character; [None] stands for [-1]. *)
Fixpoint rfind (c : ascii) (s : string) : option nat :=
  match s with
  | EmptyString => None
  | String a s' =>
      match rfind c s' with
      | Some i => Some (S i)
      | None => if decide (a = c) then Some 0 else None
      end
  end.

(** [str.split(sep)] for a single character separator. *)
Fixpoint split (sep : ascii) (s : string) : list string :=
  match s with
  | EmptyString => [EmptyString]
  | String a s' =>
      if decide (a = sep) then EmptyString :: split sep s'
      else match split sep s' with
           | [] => [String a EmptyString]
           | w :: ws => String a w :: ws
           end
  end.


(** Removes a prefix, when it is one. *)
Fixpoint strip_prefix (p s : string) : option string :=
  match p with
  | EmptyString => Some s
  | String a p' =>
      match s with
      | EmptyString => None
      | String b s' => if decide (a = b) then strip_prefix p' s' else None
      end
  end.

End Str.

(** [pathlib.PurePosixPath]: the parts of a path are its components between
    slashes, empty components and ["."] dropped. *)
Definition path_parts (p : string) : list string :=
  filter (λ c, c ≠ "" ∧ c ≠ ".") (Str.split "/"%char p).

(** [Path(p).name]: the last component, [""] when there is none. *)
Definition path_name (p : string) : string :=
  default "" (last (path_parts p)).

(** [Path(p).stem]: the name without its last suffix. The suffix starts at
    the last dot of the name, provided that dot is neither its first nor its
    last character. *)
Definition path_stem (p : string) : string :=
  let name := path_name p in
  match Str.rfind "."%char name with
  | Some i =>
      if (0 <? i) && (i <? String.length name - 1)
      then String.substring 0 i name
      else name
  | None => name
  end.

(** [dir.joinpath(name)] for a relative [name]. *)
Definition joinpath (dir name : string) : string :=
  if decide (name = "") then dir else dir +:+ "/" +:+ name.

(** ** The remote repository, the filesystem and the trace *)

(** Python [bytes]. *)
Abbreviation bytes := (list Byte.byte).

(** What [requests.get] gives back: a response with its status code and
    body, or a [requests.exceptions.RequestException]. *)
Inductive response :=
| Response (status_code : Z) (content : bytes)
| RequestException.

Inductive color := red | green | yellow.

(** The observable actions: one [Get] per call of [requests.get], one
    [Print] per line written with [print] or [tqdm.write]. *)
Inductive event :=
| Get (url : string)
| Print (c : color) (text : string).

(** The URLs requested in a trace, in order. *)
Definition gets (t : list event) : list string :=
  omap (λ e, match e with Get u => Some u | Print _ _ => None end) t.

(** One entry of [GameIndex.yaml] (only the field the program reads) and
    one item of [gamedb.json]. *)
Record game_entry := GameEntry { entry_name : string }.
Record db_item := DbItem { item_serial : string; item_name : string }.

(** The part of the world the program reads but does not change. *)
Record world := World {
  texts : gmap string string;
    (* text files by path, as decoded by [open(..., errors="ignore")] *)
  GameIndex_yaml : option (gmap string game_entry);
    (* [resources/GameIndex.yaml] as loaded by [yaml.load]; [None]: no file *)
  gamedb_json : option (list db_item);
    (* [resources/gamedb.json] as loaded by [json.load]; [None]: no file *)
  remote : string → response
    (* what the remote end answers to a GET *)
}.

(** ** Constants *)

Definition PS1_COVERS_URL_DEFAULT : string :=
  "https://raw.githubusercontent.com/xlenore/psx-covers/main/covers/default".
Definition PS1_COVERS_URL_3D : string :=
  "https://raw.githubusercontent.com/xlenore/psx-covers/main/covers/3d".
Definition PS2_COVERS_URL_DEFAULT : string :=
  "https://raw.githubusercontent.com/xlenore/ps2-covers/main/covers/default".
Definition PS2_COVERS_URL_3D : string :=
  "https://raw.githubusercontent.com/xlenore/ps2-covers/main/covers/3d".

(** ** BaseCoverDownloader *)

Inductive downloader_class := PCSX2CoverDownloader | DuckStationCoverDownloader.

(** The fields set by [__init__], and the class of the object. *)
Record downloader := Downloader {
  cls : downloader_class;
  cover_dir : string;
  gamelist_dir : string;
  cover_type : Z;
  use_ssl : bool;
  emulator : string;
  fallback : bool
}.

(** *** The serial pattern

    [re.findall(r"(\w{4}-\d{5})", text)]: the pattern is a sequence of ten
    character classes, so a match at a position is decided by the ten
    characters from there, the leftmost match is the first position that
    fits, and the scan goes on behind each match. *)

(** [\d] on an ASCII character. *)
Definition is_digit (c : ascii) : bool :=
  let n := nat_of_ascii c in (48 <=? n) && (n <=? 57).

Definition is_upper (c : ascii) : bool :=
  let n := nat_of_ascii c in (65 <=? n) && (n <=? 90).

Definition is_lower (c : ascii) : bool :=
  let n := nat_of_ascii c in (97 <=? n) && (n <=? 122).

Definition is_letter (c : ascii) : bool := is_upper c || is_lower c.

(** [\w] on an ASCII character. *)
Definition is_word (c : ascii) : bool :=
  is_letter c || is_digit c || bool_decide (c = "_"%char).

Definition is_hyphen (c : ascii) : bool := bool_decide (c = "-"%char).

(** [\w{4}-\d{5}] as its sequence of character classes. *)
Definition SERIAL_RE : list (ascii → bool) :=
  replicate 4 is_word ++ [is_hyphen] ++ replicate 5 is_digit.

(** Does the text start with a match of the classes [p]. *)
Fixpoint match_here (p : list (ascii → bool)) (s : string) : bool :=
  match p with
  | [] => true
  | cl :: p' =>
      match s with
      | EmptyString => false
      | String c s' => cl c && match_here p' s'
      end
  end.

(** [re.findall] for the classes [p] (not empty): [skip] characters of the
    last match are still to be passed over. *)
Fixpoint findall_go (p : list (ascii → bool)) (skip : nat) (s : string)
    : list string :=
  match s with
  | EmptyString => []
  | String _ s' =>
      match skip with
      | S k => findall_go p k s'
      | O =>
          if match_here p s
          then String.substring 0 (length p) s :: findall_go p (length p - 1) s'
          else findall_go p 0 s'
      end
  end.

Definition findall (p : list (ascii → bool)) (s : string) : list string :=
  findall_go p 0 s.

(** *** Methods *)

(** [get_serial_list]. [list(set(regex))] keeps one copy of each match, in
    an order Python does not fix; [remove_dups] is one such order. *)
Definition get_serial_list (w : world) (gamelist_cache_path : string)
    (existing_covers : list string) : list event * list string :=
  match texts w !! gamelist_cache_path with
  | None => ([Print red "[ERROR]: gamelist.cache file not found"], [])
  | Some text =>
      let regex := findall SERIAL_RE text in
      let serial_list := remove_dups regex in
      ([Print green ("[LOG]: " +:+ pretty (length serial_list) +:+ " games found");
        Print green "[LOG]: Removing already downloaded covers from queue..."],
       filter (λ game_serial, game_serial ∉ existing_covers) serial_list)
  end.

(** The names of the files directly in [dir], a normalised path. Only
    regular files are listed, the filesystem holding nothing else. *)
Definition listdir (fs : gmap string bytes) (dir : string) : list string :=
  omap (λ path,
          match Str.strip_prefix (dir +:+ "/") path with
          | Some name => if Str.contains "/"%char name then None else Some name
          | None => None
          end)
       (elements (dom fs)).

(** [dir.glob("*" + suffix)]. *)
Definition glob_suffix (fs : gmap string bytes) (dir suffix : string)
    : list string :=
  filter (λ name, Str.endswith suffix name = true) (listdir fs dir).

(** [existing_covers]: the stems of the [*.jpg] and [*.png] files, as a
    list without repetition. *)
Definition existing_covers (self : downloader) (fs : gmap string bytes)
    : list string :=
  remove_dups
    (path_stem <$> (glob_suffix fs (cover_dir self) ".jpg"
                    ++ glob_suffix fs (cover_dir self) ".png")).

(** [serial_to_name]: [dict.get], [None] when the key is absent. *)
Definition serial_to_name (name_list : gmap string string)
    (game_serial : string) : option string :=
  name_list !! game_serial.

(** How an f-string renders a name: [None] is written ["None"]. *)
Definition format_name (game_name : option string) : string :=
  default "None" game_name.

(** [get_name_list] of the two subclasses, on a well-formed dataset. *)
Definition get_name_list (self : downloader) (w : world)
    : list event * gmap string string :=
  match cls self with
  | PCSX2CoverDownloader =>
      match GameIndex_yaml w with
      | None => ([Print red "[ERROR]: GameIndex.yaml file not found"], ∅)
      | Some doc => ([], entry_name <$> doc)
      end
  | DuckStationCoverDownloader =>
      match gamedb_json w with
      | None => ([Print red "[ERROR]: gamedb.json file not found"], ∅)
      | Some gameindex =>
          ([], foldl (λ m item, <[item_serial item := item_name item]> m)
                     ∅ gameindex)
      end
  end.

(** The URL [download_cover] requests (lines 69-70). *)
Definition requested_url (self : downloader) (url : string) : string :=
  if use_ssl self then url else Str.replace "https://" "http://" url.

(** [download_cover]: the result, the events and the filesystem after. *)
Definition download_cover (self : downloader) (w : world)
    (url cover_path : string) (fs : gmap string bytes)
    : bool * list event * gmap string bytes :=
  let url := requested_url self url in
  match remote w url with
  | Response status_code content =>
      if decide (status_code = 200%Z)
      then (true, [Get url], <[cover_path := content]> fs)
      else (false, [Get url], fs)
  | RequestException => (false, [Get url], fs)
  end.

(** The submission loop of a pass: one [download_cover] per URL, writing to
    the cover directory under the name of the URL. *)
Fixpoint run_pool (self : downloader) (w : world) (urls : list string)
    (fs : gmap string bytes) : list bool * list event * gmap string bytes :=
  match urls with
  | [] => ([], [], fs)
  | url :: rest =>
      let cover_path := joinpath (cover_dir self) (path_name url) in
      let '(result, ev, fs1) := download_cover self w url cover_path fs in
      let '(results, evs, fs2) := run_pool self w rest fs1 in
      (result :: results, ev ++ evs, fs2)
  end.

(** The collection loop of the primary pass over [zip(results, cover_urls)]:
    the lines printed and the list [failed]. *)
Fixpoint collect_primary (name_list : gmap string string)
    (rs : list (bool * string)) : list event * list (string * option string) :=
  match rs with
  | [] => ([], [])
  | (result, url) :: rest =>
      let game_serial := path_stem url in
      let game_name := serial_to_name name_list game_serial in
      let '(ev, failed) := collect_primary name_list rest in
      if result
      then (Print green (game_serial +:+ " | " +:+ format_name game_name) :: ev,
            failed)
      else (ev, (game_serial, game_name) :: failed)
  end.

Definition skip_line (serial : string) (name : option string) : event :=
  Print yellow ("[" +:+ serial +:+ " | " +:+ format_name name
                +:+ "] not found. Skipping...").

Definition fallback_line (serial : string) (name : option string) : event :=
  Print green (serial +:+ " | " +:+ format_name name +:+ " (fallback)").

(** The choice of the fallback root and extension (lines 144-149). *)
Definition fallback_source (self : downloader)
    (covers_url_default covers_url_3d : string) : string * string :=
  if decide (cover_type self = 1%Z)
  then (covers_url_default, ".jpg")
  else (covers_url_3d, ".png").

Definition fallback_urls (self : downloader)
    (covers_url_default covers_url_3d : string)
    (failed : list (string * option string)) : list string :=
  let '(fallback_url_base, fallback_ext) :=
    fallback_source self covers_url_default covers_url_3d in
  (λ '(serial, _), fallback_url_base +:+ "/" +:+ serial +:+ fallback_ext)
    <$> failed.

(** What [download] does with [failed] after the primary pass. *)
Definition after_primary (self : downloader) (w : world)
    (covers_url_default covers_url_3d : string)
    (failed : list (string * option string)) (fs : gmap string bytes)
    : list event * gmap string bytes :=
  if bool_decide (failed ≠ []) && fallback self then
    let urls := fallback_urls self covers_url_default covers_url_3d failed in
    let '(fallback_results, ev, fs') := run_pool self w urls fs in
    (ev ++ ((λ '(fb_result, (serial, name)),
               if fb_result : bool then fallback_line serial name
               else skip_line serial name)
            <$> zip fallback_results failed),
     fs')
  else if bool_decide (failed ≠ []) then
    ((λ '(serial, name), skip_line serial name) <$> failed, fs)
  else ([], fs).

(** The two roots of an emulator, [None] for an emulator the program does
    not know. *)
Definition covers_urls (emu : string) : option (string * string) :=
  if decide (emu = "pcsx2") then
    Some (PS2_COVERS_URL_DEFAULT, PS2_COVERS_URL_3D)
  else if decide (emu = "duckstation") then
    Some (PS1_COVERS_URL_DEFAULT, PS1_COVERS_URL_3D)
  else None.

(** The list [cover_urls] of the primary pass; [None] when neither branch
    assigns it and the variable stays unbound. *)
Definition cover_urls (self : downloader) (covers_url : string)
    (serial_list existing : list string) : option (list string) :=
  if decide (cover_type self = 0%Z) then
    Some ((λ game_serial, covers_url +:+ "/" +:+ game_serial +:+ ".jpg")
            <$> filter (λ game_serial, game_serial ∉ existing) serial_list)
  else if decide (cover_type self = 1%Z) then
    Some ((λ game_serial, covers_url +:+ "/" +:+ game_serial +:+ ".png")
            <$> filter (λ game_serial, game_serial ∉ existing) serial_list)
  else None.

Inductive exn := UnboundLocalError (name : string).

(** How a call ends: whether it raised, what it did, and the filesystem it
    leaves. *)
Record outcome := Outcome {
  raised : option exn;
  trace : list event;
  fs_after : gmap string bytes
}.

(** [download]. *)
Definition download (self : downloader) (w : world) (fs : gmap string bytes)
    : outcome :=
  let existing := existing_covers self fs in
  let '(ev_names, name_list) := get_name_list self w in
  let '(ev_serials, serial_list) := get_serial_list w (gamelist_dir self) existing in
  match covers_urls (emulator self) with
  | None =>
      Outcome None
        (ev_names ++ ev_serials
         ++ [Print red ("[ERROR]: Invalid emulator: " +:+ emulator self)])
        fs
  | Some (covers_url_default, covers_url_3d) =>
      let covers_url :=
        if decide (cover_type self = 1%Z) then covers_url_3d
        else covers_url_default in
      let urls := cover_urls self covers_url serial_list existing in
      if decide (serial_list = []) then
        Outcome None
          (ev_names ++ ev_serials
           ++ [Print green "[LOG]: All covers have already been downloaded"])
          fs
      else
        match urls with
        | None =>
            Outcome (Some (UnboundLocalError "cover_urls"))
              (ev_names ++ ev_serials) fs
        | Some urls =>
            let '(results, ev_pool, fs1) := run_pool self w urls fs in
            let '(ev_lines, failed) :=
              collect_primary name_list (zip results urls) in
            let '(ev_after, fs2) :=
              after_primary self w covers_url_default covers_url_3d failed fs1 in
            Outcome None
              (ev_names ++ ev_serials ++ ev_pool ++ ev_lines ++ ev_after) fs2
        end
  end.

(** ** download_covers *)

Definition download_covers (cover_dir gamelist_dir : string) (cover_type : Z)
    (use_ssl : bool) (emulator : string) (fallback : bool)
    (w : world) (fs : gmap string bytes) : outcome :=
  if decide (emulator = "pcsx2") then
    download (Downloader PCSX2CoverDownloader cover_dir gamelist_dir
                cover_type use_ssl emulator fallback) w fs
  else if decide (emulator = "duckstation") then
    download (Downloader DuckStationCoverDownloader cover_dir gamelist_dir
                cover_type use_ssl emulator fallback) w fs
  else
    Outcome None [Print red ("[ERROR]: Invalid emulator: " +:+ emulator)] fs.

(** * Notions used to state the properties *)

(** [re.fullmatch]: the whole string is one match of the classes. *)
Definition fullmatch (p : list (ascii → bool)) (s : string) : bool :=
  match_here p s && (String.length s =? length p).

Fixpoint all_chars (P : ascii → bool) (s : string) : bool :=
  match s with
  | EmptyString => true
  | String a s' => P a && all_chars P s'
  end.

(** The characters a serial can be made of. *)
Definition serial_char (c : ascii) : bool := is_word c || is_hyphen c.



(** Whether a GET of the URL finds the cover: status 200. *)
Definition fetch_ok (w : world) (url : string) : bool :=
  match remote w url with
  | Response status_code _ => bool_decide (status_code = 200%Z)
  | RequestException => false
  end.


(** Whether the reference dataset of the downloader's class is missing. *)
Definition dataset_missing (self : downloader) (w : world) : Prop :=
  match cls self with
  | PCSX2CoverDownloader => GameIndex_yaml w = None
  | DuckStationCoverDownloader => gamedb_json w = None
  end.

(** The lines printed in a trace, in order. *)
Definition lines (t : list event) : list (color * string) :=
  omap (λ e, match e with Print c s => Some (c, s) | Get _ => None end) t.

(** * URL derivation as the specification words it

    The candidate URL is [{repository_root}/{serial}.{ext}], the root taken
    from a table of four indexed by emulator target and cover style; plain
    transport replaces the scheme [https] by [http]. *)

Inductive emulator_target := Pcsx2 | Duckstation.
Inductive cover_style := Flat | Box3D.

Definition target_name (t : emulator_target) : string :=
  match t with Pcsx2 => "pcsx2" | Duckstation => "duckstation" end.

Definition style_code (st : cover_style) : Z :=
  match st with Flat => 0%Z | Box3D => 1%Z end.

Definition other_style (st : cover_style) : cover_style :=
  match st with Flat => Box3D | Box3D => Flat end.

Definition repository_root (t : emulator_target) (st : cover_style) : string :=
  match t, st with
  | Pcsx2, Flat => PS2_COVERS_URL_DEFAULT
  | Pcsx2, Box3D => PS2_COVERS_URL_3D
  | Duckstation, Flat => PS1_COVERS_URL_DEFAULT
  | Duckstation, Box3D => PS1_COVERS_URL_3D
  end.

Definition style_ext (st : cover_style) : string :=
  match st with Flat => "jpg" | Box3D => "png" end.

Definition candidate_url (t : emulator_target) (st : cover_style)
    (serial : string) : string :=
  repository_root t st +:+ "/" +:+ serial +:+ "." +:+ style_ext st.

(** The scheme of the URL replaced: [https://rest] becomes [http://rest]. *)
Definition downgrade (url : string) : string :=
  match Str.strip_prefix "https://" url with
  | Some rest => "http://" +:+ rest
  | None => url
  end.

Definition spec_url (t : emulator_target) (st : cover_style)
    (encrypted : bool) (serial : string) : string :=
  if encrypted then candidate_url t st serial
  else downgrade (candidate_url t st serial).

(** The file a cover of the given style is stored in:
    [cover_dir/serial.ext]. *)
Definition cover_file (self : downloader) (st : cover_style)
    (serial : string) : string :=
  cover_dir self +:+ "/" +:+ serial +:+ "." +:+ style_ext st.

(** * A sample run

    A cache file naming two games, no reference dataset, and a remote end
    that has the flat cover of the first game and the 3D cover of the
    second. *)

Module Sample.

Definition cache : string :=
  "/games/SLUS-20312.iso;/games/SCUS-97101.iso;".

Definition answer (url : string) : response :=
  if decide (url = "https://raw.githubusercontent.com/xlenore/ps2-covers/main/covers/default/SLUS-20312.jpg")
  then Response 200 [Byte.xff; Byte.xd8; Byte.xff]
  else if decide (url = "https://raw.githubusercontent.com/xlenore/ps2-covers/main/covers/3d/SCUS-97101.png")
  then Response 200 [Byte.x89; Byte.x50; Byte.x4e; Byte.x47]
  else Response 404 [].

Definition w : world :=
  World {["gamelist.cache" := cache]} None None answer.


Definition pcsx2_flat : downloader :=
  Downloader PCSX2CoverDownloader "covers" "gamelist.cache" 0 true "pcsx2"
             true.

Definition pcsx2_other : downloader :=
  Downloader PCSX2CoverDownloader "covers" "gamelist.cache" 2 true "pcsx2"
             true.

(** A world without the cache file. *)
Definition w_no_cache : world := World ∅ None None answer.

(** A [gamedb.json] that lists one serial twice. *)
Definition gamedb : list db_item :=
  [DbItem "SLUS-00594" "Metal Gear Solid (Disc 1)";
   DbItem "SCUS-94900" "Crash Bandicoot";
   DbItem "SLUS-00594" "Metal Gear Solid"].

Definition w_duck : world :=
  World {["gamelist.cache" := "SLUS-00594;SCUS-94900;"]} None (Some gamedb)
        answer.

Definition duck_plain : downloader :=
  Downloader DuckStationCoverDownloader "covers" "gamelist.cache" 0 false
             "duckstation" false.

End Sample.

(** * Facts about the string and path operations *)

Module StrFacts.

Lemma app_nil_l (s : string) : "" +:+ s = s.
Proof. reflexivity. Qed.

Lemma app_cons (a : ascii) (s t : string) :
  String a s +:+ t = String a (s +:+ t).
Proof. reflexivity. Qed.

Lemma app_nil_r (s : string) : s +:+ "" = s.
Proof. induction s as [|a s IH]; [done|]. by rewrite app_cons, IH. Qed.

Lemma app_assoc (s t u : string) : (s +:+ t) +:+ u = s +:+ (t +:+ u).
Proof.
  induction s as [|a s IH]; [done|]. by rewrite !app_cons, IH.
Qed.

Lemma length_app (s t : string) :
  String.length (s +:+ t) = String.length s + String.length t.
Proof.
  induction s as [|a s IH]; [done|]. rewrite app_cons. simpl. by rewrite IH.
Qed.

Lemma substring_app_l (s t : string) :
  String.substring 0 (String.length s) (s +:+ t) = s.
Proof.
  induction s as [|a s IH].
  - by destruct t.
  - rewrite app_cons. simpl. by rewrite IH.
Qed.

Lemma contains_app (c : ascii) (s t : string) :
  Str.contains c (s +:+ t) = Str.contains c s || Str.contains c t.
Proof.
  induction s as [|a s IH]; [done|].
  rewrite app_cons. simpl. by destruct (decide (a = c)).
Qed.

Lemma prefix_contains (c : ascii) (p s : string) :
  String.prefix p s = true → Str.contains c p = true →
  Str.contains c s = true.
Proof.
  revert s. induction p as [|a p IH]; intros s Hp Hc; [done|].
  destruct s as [|b s]; [done|]. simpl in Hp, Hc |- *.
  destruct (ascii_dec a b) as [->|]; [|done].
  destruct (decide (b = c)); [done|]. by apply IH.
Qed.

(** *** replace *)

Lemma replace_go_absent (c : ascii) (old new s : string) :
  Str.contains c old = true → Str.contains c s = false →
  Str.replace_go old new 0 s = s.
Proof.
  intros Hold. induction s as [|a s IH]; intros Hs; [done|].
  cbn [Str.replace_go]. destruct (String.prefix old (String a s)) eqn:Hp.
  - apply (prefix_contains c) in Hp; [|done]. by rewrite Hp in Hs.
  - simpl in Hs. destruct (decide (a = c)); [done|]. by rewrite IH.
Qed.

Lemma replace_go_skip (old new a s : string) :
  Str.replace_go old new (String.length a) (a +:+ s)
  = Str.replace_go old new 0 s.
Proof.
  induction a as [|c a IH]; [by destruct s|].
  rewrite app_cons. simpl. apply IH.
Qed.

Lemma prefix_app (p s : string) : String.prefix p (p +:+ s) = true.
Proof.
  induction p as [|a p IH]; [by destruct s|].
  rewrite app_cons. simpl. by destruct (ascii_dec a a).
Qed.

(** Replacing the scheme of a URL that has no other colon. *)
Lemma replace_https (rest : string) :
  Str.contains ":" rest = false →
  Str.replace "https://" "http://" ("https://" +:+ rest) = "http://" +:+ rest.
Proof.
  intros Hrest. unfold Str.replace.
  pose proof (prefix_app "https://" rest) as Hp.
  change ("https://" +:+ rest) with (String "h" ("ttps://" +:+ rest)) in *.
  cbn [Str.replace_go]. rewrite Hp.
  change (String.length "https://" - 1) with (String.length "ttps://").
  rewrite replace_go_skip.
  by rewrite (replace_go_absent ":" "https://" "http://" rest).
Qed.

(** *** split and the name of a path *)

Lemma split_not_nil (sep : ascii) (s : string) : Str.split sep s ≠ [].
Proof.
  induction s as [|a s IH]; [done|]. simpl.
  destruct (decide (a = sep)); [done|]. by destruct (Str.split sep s).
Qed.

Lemma split_absent (sep : ascii) (s : string) :
  Str.contains sep s = false → Str.split sep s = [s].
Proof.
  induction s as [|a s IH]; intros Hs; [done|]. simpl in Hs |- *.
  destruct (decide (a = sep)); [done|]. by rewrite IH.
Qed.

Lemma split_app (sep : ascii) (s t : string) :
  Str.split sep (s +:+ String sep t) = Str.split sep s ++ Str.split sep t.
Proof.
  induction s as [|a s IH].
  - rewrite app_nil_l. simpl. by rewrite decide_True.
  - rewrite app_cons. simpl. destruct (decide (a = sep)).
    + by rewrite IH.
    + rewrite IH. pose proof (split_not_nil sep s).
      by destruct (Str.split sep s).
Qed.

Lemma path_name_join (dir name : string) :
  Str.contains "/" name = false → name ≠ "" → name ≠ "." →
  path_name (dir +:+ "/" +:+ name) = name.
Proof.
  intros Hs Hne Hdot. unfold path_name, path_parts.
  change ("/" +:+ name) with (String "/" name).
  rewrite split_app, filter_app, (split_absent _ name Hs).
  rewrite filter_cons_True by done.
  rewrite filter_nil. by rewrite last_snoc.
Qed.

(** *** rfind and the stem of a path *)

Lemma rfind_app (c : ascii) (s t : string) :
  Str.rfind c (s +:+ t) =
    match Str.rfind c t with
    | Some i => Some (String.length s + i)
    | None => Str.rfind c s
    end.
Proof.
  induction s as [|a s IH].
  - rewrite app_nil_l. by destruct (Str.rfind c t).
  - rewrite app_cons. simpl. rewrite IH. by destruct (Str.rfind c t).
Qed.

(** The stem of [dir/name.ext] for a three-letter extension. *)
Lemma path_stem_join (dir name ext : string) :
  Str.contains "/" name = false → name ≠ "" →
  Str.contains "/" ext = false → Str.rfind "." ext = Some 0 →
  String.length ext = 4 →
  path_stem (dir +:+ "/" +:+ name +:+ ext) = name.
Proof.
  intros Hname Hne Hext Hdot Hlen. unfold path_stem.
  rewrite path_name_join.
  - rewrite rfind_app, Hdot, length_app, Hlen, Nat.add_0_r.
    destruct name as [|a name]; [done|]. simpl String.length.
    replace (0 <? S (String.length name)) with true
      by (symmetry; apply Nat.ltb_lt; lia).
    replace (S (String.length name) <? S (String.length name) + 4 - 1)
      with true by (symmetry; apply Nat.ltb_lt; lia).
    simpl andb. cbv iota.
    apply (substring_app_l (String a name) ext).
  - by rewrite contains_app, Hname, Hext.
  - destruct name; [done|]. by rewrite app_cons.
  - destruct name as [|a [|b name]]; [done| |by rewrite !app_cons].
    rewrite app_cons, app_nil_l. destruct ext; [done|]. done.
Qed.

End StrFacts.

(** * Facts about the serial pattern *)

Module ReFacts.

Lemma substring_S (i n : nat) (c : ascii) (s : string) :
  String.substring (S i) n (String c s) = String.substring i n s.
Proof. reflexivity. Qed.

Lemma match_here_fullmatch (p : list (ascii → bool)) (s : string) :
  match_here p s = true →
  fullmatch p (String.substring 0 (length p) s) = true.
Proof.
  unfold fullmatch. revert s. induction p as [|cl p IH]; intros s Hm.
  - by destruct s.
  - destruct s as [|c s]; [done|]. simpl in Hm |- *.
    apply andb_true_iff in Hm as [Hc Hm]. rewrite Hc. simpl.
    specialize (IH s Hm). apply andb_true_iff in IH as [IH1 IH2].
    by rewrite IH1.
Qed.

Lemma fullmatch_all_chars (Q : ascii → bool) (p : list (ascii → bool))
    (s : string) :
  Forall (λ cl, ∀ c, cl c = true → Q c = true) p →
  fullmatch p s = true → all_chars Q s = true.
Proof.
  unfold fullmatch. intros Hp. revert s.
  induction Hp as [|cl p Hcl _ IH]; intros s Hm.
  - destruct s; [done|]. by rewrite andb_false_r in Hm.
  - destruct s as [|c s]; [done|]. simpl in Hm |- *.
    apply andb_true_iff in Hm as [Hm Hlen].
    apply andb_true_iff in Hm as [Hc Hm].
    rewrite (Hcl c Hc). simpl. apply IH. by rewrite Hm.
Qed.

Lemma fullmatch_length (p : list (ascii → bool)) (s : string) :
  fullmatch p s = true → String.length s = length p.
Proof.
  unfold fullmatch. intros [_ H]%andb_true_iff. by apply Nat.eqb_eq.
Qed.

Lemma all_chars_absent (Q : ascii → bool) (c : ascii) (s : string) :
  Q c = false → all_chars Q s = true → Str.contains c s = false.
Proof.
  intros Hc. induction s as [|a s IH]; intros Hs; [done|].
  simpl in Hs |- *. apply andb_true_iff in Hs as [Ha Hs].
  destruct (decide (a = c)) as [->|]; [congruence|]. by apply IH.
Qed.

(** Every string [findall] returns is cut out of the text at some offset
    and matches the pattern as a whole. *)
Lemma findall_go_sound (p : list (ascii → bool)) (skip : nat)
    (text x : string) :
  x ∈ findall_go p skip text →
  ∃ i, x = String.substring i (length p) text ∧ fullmatch p x = true.
Proof.
  revert skip. induction text as [|c text IH]; intros skip Hx.
  - by apply elem_of_nil in Hx.
  - cbn [findall_go] in Hx. destruct skip as [|k].
    + destruct (match_here p (String c text)) eqn:Hm.
      * apply elem_of_cons in Hx as [->|Hx].
        -- exists 0. split; [done|]. by apply match_here_fullmatch.
        -- destruct (IH _ Hx) as (i & -> & Hf). exists (S i).
           by rewrite substring_S.
      * destruct (IH _ Hx) as (i & -> & Hf). exists (S i).
        by rewrite substring_S.
    + destruct (IH _ Hx) as (i & -> & Hf). exists (S i).
      by rewrite substring_S.
Qed.







Lemma word_is_serial_char (c : ascii) : is_word c = true → serial_char c = true.
Proof. unfold serial_char. by intros ->. Qed.

Lemma hyphen_is_serial_char (c : ascii) :
  is_hyphen c = true → serial_char c = true.
Proof. unfold serial_char. intros ->. apply orb_true_r. Qed.

Lemma digit_is_serial_char (c : ascii) :
  is_digit c = true → serial_char c = true.
Proof.
  unfold serial_char, is_word. intros ->. by rewrite orb_true_r.
Qed.

Lemma SERIAL_RE_chars :
  Forall (λ cl : ascii → bool, ∀ c, cl c = true → serial_char c = true)
         SERIAL_RE.
Proof.
  unfold SERIAL_RE. simpl.
  repeat (apply Forall_cons; split;
          [first [exact word_is_serial_char | exact hyphen_is_serial_char
                 | exact digit_is_serial_char] |]).
  apply Forall_nil_2.
Qed.

(** A serial is not empty and has no slash and no colon. *)
Lemma serial_plain (s : string) :
  fullmatch SERIAL_RE s = true →
  s ≠ "" ∧ Str.contains "/" s = false ∧ Str.contains ":" s = false.
Proof.
  intros Hs. pose proof (fullmatch_length _ _ Hs) as Hlen.
  pose proof (fullmatch_all_chars serial_char _ _ SERIAL_RE_chars Hs) as Hall.
  repeat split.
  - intros ->. done.
  - by apply (all_chars_absent serial_char).
  - by apply (all_chars_absent serial_char).
Qed.

End ReFacts.

(** * Facts about the passes *)

Module PassFacts.

Lemma download_cover_result self w url cover_path fs :
  (download_cover self w url cover_path fs).1.1
  = fetch_ok w (requested_url self url).
Proof.
  unfold download_cover, fetch_ok.
  destruct (remote w (requested_url self url)) as [sc body|]; [|done].
  by destruct (decide (sc = 200%Z)); [rewrite bool_decide_true
                                     |rewrite bool_decide_false].
Qed.

Lemma download_cover_events self w url cover_path fs :
  (download_cover self w url cover_path fs).1.2
  = [Get (requested_url self url)].
Proof.
  unfold download_cover.
  destruct (remote w (requested_url self url)) as [sc body|]; [|done].
  by destruct (decide (sc = 200%Z)).
Qed.

Lemma run_pool_results self w urls fs :
  (run_pool self w urls fs).1.1
  = (λ u, fetch_ok w (requested_url self u)) <$> urls.
Proof.
  revert fs. induction urls as [|u urls IH]; intros fs; [done|].
  cbn [run_pool].
  pose proof (download_cover_result self w u
                (joinpath (cover_dir self) (path_name u)) fs) as Hr.
  destruct (download_cover self w u _ fs) as [[r ev] fs1].
  specialize (IH fs1). destruct (run_pool self w urls fs1) as [[rs evs] fs2].
  simpl in *. by rewrite Hr, IH.
Qed.

Lemma run_pool_events self w urls fs :
  (run_pool self w urls fs).1.2 = (λ u, Get (requested_url self u)) <$> urls.
Proof.
  revert fs. induction urls as [|u urls IH]; intros fs; [done|].
  cbn [run_pool].
  pose proof (download_cover_events self w u
                (joinpath (cover_dir self) (path_name u)) fs) as He.
  destruct (download_cover self w u _ fs) as [[r ev] fs1].
  specialize (IH fs1). destruct (run_pool self w urls fs1) as [[rs evs] fs2].
  simpl in *. by rewrite He, IH.
Qed.

Lemma gets_app (t1 t2 : list event) : gets (t1 ++ t2) = gets t1 ++ gets t2.
Proof. apply omap_app. Qed.

Lemma gets_Get {A} (f : A → string) (l : list A) :
  gets ((λ x, Get (f x)) <$> l) = f <$> l.
Proof. induction l as [|x l IH]; [done|]. simpl. by f_equal. Qed.

Lemma collect_primary_gets name_list rs :
  gets (collect_primary name_list rs).1 = [].
Proof.
  induction rs as [|[r u] rs IH]; [done|]. cbn [collect_primary].
  destruct (collect_primary name_list rs) as [ev failed].
  by destruct r.
Qed.

(** [failed] lists the stems of the URLs whose fetch failed, in order. *)
Lemma collect_primary_failed name_list (f : string → bool) urls :
  (collect_primary name_list (zip (f <$> urls) urls)).2
  = (λ u, (path_stem u, serial_to_name name_list (path_stem u)))
      <$> filter (λ u, f u = false) urls.
Proof.
  induction urls as [|u urls IH]; [done|].
  cbn [fmap list_fmap zip zip_with collect_primary].
  change (zip_with pair (list_fmap _ _ f urls) urls)
    with (zip (f <$> urls) urls).
  destruct (collect_primary name_list (zip (f <$> urls) urls))
    as [ev failed]. simpl in IH.
  destruct (f u) eqn:Hf.
  - rewrite filter_cons_False by (by rewrite Hf). done.
  - rewrite filter_cons_True by done. simpl. by rewrite IH.
Qed.

End PassFacts.

Module UrlFacts.
Import StrFacts ReFacts.

Lemma strip_prefix_app (p s : string) : Str.strip_prefix p (p +:+ s) = Some s.
Proof.
  induction p as [|a p IH]; [done|].
  rewrite app_cons. simpl. by rewrite decide_True.
Qed.

(** The four roots are [https] URLs with no further colon. *)
Lemma repository_root_https t st :
  ∃ rest, repository_root t st = "https://" +:+ rest
          ∧ Str.contains ":" rest = false.
Proof. destruct t, st; eexists; split; reflexivity. Qed.

Lemma covers_urls_target t :
  covers_urls (target_name t)
  = Some (repository_root t Flat, repository_root t Box3D).
Proof. by destruct t. Qed.

Lemma style_ext_facts st :
  Str.contains "/" ("." +:+ style_ext st) = false
  ∧ Str.contains ":" ("." +:+ style_ext st) = false
  ∧ Str.rfind "." ("." +:+ style_ext st) = Some 0
  ∧ String.length ("." +:+ style_ext st) = 4.
Proof. by destruct st. Qed.

(** On the URL of a serial, replacing every ["https://"] is replacing
    the scheme. *)
Lemma requested_candidate self t st s :
  fullmatch SERIAL_RE s = true →
  requested_url self (candidate_url t st s) = spec_url t st (use_ssl self) s.
Proof.
  intros (_ & _ & Hcolon)%serial_plain.
  unfold requested_url, spec_url. destruct (use_ssl self); [done|].
  unfold candidate_url, downgrade.
  destruct (repository_root_https t st) as (rest & -> & Hrest).
  destruct (style_ext_facts st) as (_ & Hext & _).
  rewrite app_assoc, strip_prefix_app. apply replace_https.
  rewrite contains_app in Hext. rewrite !contains_app.
  by rewrite Hrest, Hcolon, Hext.
Qed.

Lemma path_stem_candidate t st s :
  fullmatch SERIAL_RE s = true → path_stem (candidate_url t st s) = s.
Proof.
  intros (Hne & Hslash & _)%serial_plain.
  destruct (style_ext_facts st) as (? & _ & ? & ?).
  unfold candidate_url. by apply path_stem_join.
Qed.

Lemma path_stem_spec_url t st enc s :
  fullmatch SERIAL_RE s = true → path_stem (spec_url t st enc s) = s.
Proof.
  intros Hs. unfold spec_url. destruct enc; [by apply path_stem_candidate|].
  pose proof Hs as (Hne & Hslash & _)%serial_plain.
  destruct (style_ext_facts st) as (? & _ & ? & ?).
  unfold candidate_url, downgrade.
  destruct (repository_root_https t st) as (rest & -> & _).
  rewrite app_assoc, strip_prefix_app, <- app_assoc.
  by apply path_stem_join.
Qed.

Lemma requested_candidates self t st (l : list string) :
  Forall (λ s, fullmatch SERIAL_RE s = true) l →
  requested_url self <$> (candidate_url t st <$> l)
  = spec_url t st (use_ssl self) <$> l.
Proof.
  intros Hl. rewrite <- list_fmap_compose. apply Forall_fmap_ext.
  eapply Forall_impl; [exact Hl|]. intros s Hs. by apply requested_candidate.
Qed.

(** The stems of the URLs that fail are the serials that fail. *)
Lemma failed_candidates (name_list : gmap string string) t st
    (f : string → bool) (l : list string) :
  Forall (λ s, fullmatch SERIAL_RE s = true) l →
  (λ u, (path_stem u, serial_to_name name_list (path_stem u)))
    <$> filter (λ u, f u = false) (candidate_url t st <$> l)
  = (λ s, (s, serial_to_name name_list s))
      <$> filter (λ s, f (candidate_url t st s) = false) l.
Proof.
  induction 1 as [|s l Hs _ IH]; [done|].
  rewrite fmap_cons.
  destruct (f (candidate_url t st s)) eqn:Hf.
  - rewrite !filter_cons_False by (by rewrite Hf). done.
  - rewrite !filter_cons_True by done. rewrite !fmap_cons, IH.
    by rewrite path_stem_candidate.
Qed.

End UrlFacts.

(** * The requests of a whole run *)

Module RunFacts.
Import StrFacts ReFacts PassFacts UrlFacts.

Lemma get_name_list_gets self w : gets (get_name_list self w).1 = [].
Proof.
  unfold get_name_list.
  by destruct (cls self), (GameIndex_yaml w), (gamedb_json w).
Qed.

Lemma get_serial_list_gets w path existing :
  gets (get_serial_list w path existing).1 = [].
Proof. unfold get_serial_list. by destruct (texts w !! path). Qed.

Lemma get_serial_list_fullmatch w path existing :
  Forall (λ s, fullmatch SERIAL_RE s = true)
         (get_serial_list w path existing).2.
Proof.
  unfold get_serial_list. destruct (texts w !! path) as [text|]; [|done].
  simpl. apply Forall_forall. intros s [_ Hs]%list_elem_of_filter.
  rewrite elem_of_remove_dups in Hs.
  by destruct (findall_go_sound _ _ _ _ Hs) as (_ & _ & ?).
Qed.

Lemma filter_twice {A} (P : A → Prop) `{!∀ x, Decision (P x)} (l : list A) :
  filter P (filter P l) = filter P l.
Proof.
  rewrite list_filter_filter. apply list_filter_iff. intros x. tauto.
Qed.

Lemma get_serial_list_filtered w path existing :
  filter (λ s, s ∉ existing) (get_serial_list w path existing).2
  = (get_serial_list w path existing).2.
Proof.
  unfold get_serial_list. destruct (texts w !! path) as [text|]; [|done].
  apply filter_twice.
Qed.

Lemma cover_urls_style self t st serial_list existing :
  cover_type self = style_code st →
  cover_urls self (repository_root t st) serial_list existing
  = Some (candidate_url t st
            <$> filter (λ s, s ∉ existing) serial_list).
Proof. unfold cover_urls. intros ->. by destruct st. Qed.

Lemma fallback_urls_style self t st failed :
  cover_type self = style_code st →
  fallback_urls self (repository_root t Flat) (repository_root t Box3D) failed
  = candidate_url t (other_style st) <$> failed.*1.
Proof.
  unfold fallback_urls, fallback_source. intros ->.
  rewrite <- list_fmap_compose.
  destruct st; simpl; apply list_fmap_ext; by intros ? [].
Qed.

(** The events of the stage after the primary pass. *)
Lemma after_primary_gets self w rd r3 failed fs :
  gets (after_primary self w rd r3 failed fs).1
  = if bool_decide (failed ≠ []) && fallback self
    then requested_url self <$> fallback_urls self rd r3 failed
    else [].
Proof.
  unfold after_primary.
  destruct (bool_decide (failed ≠ []) && fallback self).
  - pose proof (run_pool_events self w (fallback_urls self rd r3 failed) fs)
      as He.
    destruct (run_pool self w _ fs) as [[rs ev] fs']. simpl in *.
    rewrite gets_app, He, gets_Get.
    rewrite <- (List.app_nil_r (requested_url self <$> _)) at 2. f_equal.
    generalize (zip rs failed). intros l.
    induction l as [|[[] []] l IH]; done.
  - destruct (bool_decide (failed ≠ [])); [|done]. simpl.
    induction failed as [|[] failed IH]; done.
Qed.

(** The requests of a run with a known emulator and cover style: one per
    work item for the style asked for, then, with fallback enabled, one
    for the other style per work item whose first request failed. *)
Lemma download_gets self w fs t st :
  emulator self = target_name t → cover_type self = style_code st →
  let work :=
    (get_serial_list w (gamelist_dir self) (existing_covers self fs)).2 in
  let enc := use_ssl self in
  gets (trace (download self w fs))
  = (spec_url t st enc <$> work)
    ++ (if fallback self
        then spec_url t (other_style st) enc
               <$> filter (λ s, fetch_ok w (spec_url t st enc s) = false) work
        else []).
Proof.
  intros Hemu Hstyle work enc. unfold download.
  pose proof (get_name_list_gets self w) as Hn.
  destruct (get_name_list self w) as [ev_names name_list].
  pose proof (get_serial_list_gets w (gamelist_dir self)
                (existing_covers self fs)) as Hs.
  pose proof (get_serial_list_fullmatch w (gamelist_dir self)
                (existing_covers self fs)) as Hfull.
  pose proof (get_serial_list_filtered w (gamelist_dir self)
                (existing_covers self fs)) as Hfilt.
  fold work in Hfull, Hfilt. subst work.
  destruct (get_serial_list w _ _) as [ev_serials work]. simpl in *.
  rewrite Hemu, covers_urls_target.
  replace (if decide (cover_type self = 1%Z) then repository_root t Box3D
           else repository_root t Flat) with (repository_root t st)
    by (rewrite Hstyle; by destruct st).
  rewrite (cover_urls_style self t st) by done. rewrite Hfilt.
  destruct (decide (work = [])) as [->|Hne].
  { simpl. rewrite !gets_app, Hn, Hs. by destruct (fallback self). }
  pose proof (run_pool_results self w (candidate_url t st <$> work) fs) as Hr.
  pose proof (run_pool_events self w (candidate_url t st <$> work) fs) as He.
  destruct (run_pool self w _ fs) as [[results ev_pool] fs1]. simpl in *.
  subst results ev_pool.
  pose proof (collect_primary_gets name_list
    (zip ((λ u, fetch_ok w (requested_url self u))
            <$> (candidate_url t st <$> work))
         (candidate_url t st <$> work))) as Hc.
  pose proof (collect_primary_failed name_list
    (λ u, fetch_ok w (requested_url self u)) (candidate_url t st <$> work))
    as Hf.
  destruct (collect_primary name_list _) as [ev_lines failed]. simpl in *.
  pose proof (after_primary_gets self w (repository_root t Flat)
                (repository_root t Box3D) failed fs1) as Ha.
  destruct (after_primary self w _ _ failed fs1) as [ev_after fs2].
  simpl in *.
  rewrite !gets_app, Hn, Hs, Hc, Ha, gets_Get. simpl.
  rewrite requested_candidates by done. f_equal.
  rewrite (failed_candidates name_list t st _ work Hfull) in Hf.
  assert (failed.*1
          = filter (λ s, fetch_ok w (spec_url t st enc s) = false) work)
    as Hfailed.
  { subst failed. clear -Hfull. subst enc.
    induction Hfull as [|s l Hs _ IH]; [done|].
    rewrite !filter_cons, (requested_candidate self t st s Hs).
    destruct (decide (fetch_ok w (spec_url t st (use_ssl self) s) = false));
      [rewrite !fmap_cons; cbn [fst]; f_equal; exact IH | exact IH]. }
  rewrite (fallback_urls_style self t st) by done. rewrite Hfailed.
  destruct (fallback self).
  - rewrite andb_true_r. case_bool_decide as Hnil.
    + apply requested_candidates.
      apply Forall_forall. intros s [_ Hs']%list_elem_of_filter.
      by apply (proj1 (Forall_forall _ _) Hfull).
    + rewrite Hnil in Hfailed. by rewrite <- Hfailed.
  - by rewrite andb_false_r.
Qed.

End RunFacts.

(** * The ways a run ends early *)

Module EarlyExit.
Import PassFacts RunFacts.

Lemma covers_urls_inv emu p :
  covers_urls emu = Some p → ∃ t, emu = target_name t.
Proof.
  unfold covers_urls. intros H.
  destruct (decide (emu = "pcsx2")) as [->|]; [by exists Pcsx2|].
  destruct (decide (emu = "duckstation")) as [->|]; [by exists Duckstation|].
  done.
Qed.

Lemma covers_urls_unknown emu :
  emu ≠ "pcsx2" → emu ≠ "duckstation" → covers_urls emu = None.
Proof.
  intros H1 H2. unfold covers_urls. by rewrite !decide_False.
Qed.

(** Lines 94-96: an emulator without roots. *)
Lemma download_unknown_emulator self w fs :
  covers_urls (emulator self) = None →
  download self w fs
  = Outcome None
      ((get_name_list self w).1
       ++ (get_serial_list w (gamelist_dir self) (existing_covers self fs)).1
       ++ [Print red ("[ERROR]: Invalid emulator: " +:+ emulator self)])
      fs.
Proof.
  intros H. unfold download. rewrite H.
  destruct (get_name_list self w), (get_serial_list w _ _). done.
Qed.

(** Lines 115-117: nothing left to download. *)
Lemma download_nothing self w fs p :
  covers_urls (emulator self) = Some p →
  (get_serial_list w (gamelist_dir self) (existing_covers self fs)).2 = [] →
  download self w fs
  = Outcome None
      ((get_name_list self w).1
       ++ (get_serial_list w (gamelist_dir self) (existing_covers self fs)).1
       ++ [Print green "[LOG]: All covers have already been downloaded"])
      fs.
Proof.
  intros H Hw. unfold download. rewrite H. destruct p as [rd r3].
  destruct (get_name_list self w), (get_serial_list w _ _).
  simpl in *. subst. done.
Qed.

(** Line 122 with [cover_urls] never assigned. *)
Lemma download_unbound self w fs p :
  covers_urls (emulator self) = Some p →
  cover_type self ≠ 0%Z → cover_type self ≠ 1%Z →
  (get_serial_list w (gamelist_dir self) (existing_covers self fs)).2 ≠ [] →
  download self w fs
  = Outcome (Some (UnboundLocalError "cover_urls"))
      ((get_name_list self w).1
       ++ (get_serial_list w (gamelist_dir self) (existing_covers self fs)).1)
      fs.
Proof.
  intros H H0 H1 Hw. unfold download, cover_urls. rewrite H.
  destruct p as [rd r3].
  destruct (get_name_list self w), (get_serial_list w _ _). simpl in *.
  rewrite (decide_False (P := cover_type self = 0%Z)) by done.
  rewrite !(decide_False (P := cover_type self = 1%Z)) by done.
  by rewrite decide_False.
Qed.

End EarlyExit.

(** * The sample run, computed *)

Module SampleRun.
Import Sample.

Example run_trace :
  trace (download pcsx2_flat w ∅)
  = [Print red "[ERROR]: GameIndex.yaml file not found";
     Print green "[LOG]: 2 games found";
     Print green "[LOG]: Removing already downloaded covers from queue...";
     Get "https://raw.githubusercontent.com/xlenore/ps2-covers/main/covers/default/SLUS-20312.jpg";
     Get "https://raw.githubusercontent.com/xlenore/ps2-covers/main/covers/default/SCUS-97101.jpg";
     Print green "SLUS-20312 | None";
     Get "https://raw.githubusercontent.com/xlenore/ps2-covers/main/covers/3d/SCUS-97101.png";
     Print green "SCUS-97101 | None (fallback)"].
Proof. vm_compute. reflexivity. Qed.

Example run_files :
  map_to_list (fs_after (download pcsx2_flat w ∅))
  = [("covers/SCUS-97101.png", [Byte.x89; Byte.x50; Byte.x4e; Byte.x47]);
     ("covers/SLUS-20312.jpg", [Byte.xff; Byte.xd8; Byte.xff])].
Proof. vm_compute. reflexivity. Qed.

(** A second run finds both covers and has nothing to do. *)
Example second_run :
  gets (trace (download pcsx2_flat w (fs_after (download pcsx2_flat w ∅))))
  = [].
Proof. vm_compute. reflexivity. Qed.

End SampleRun.

(** * The properties of the specification *)

(** C4. A fetch attempt issues exactly one GET, for the URL as rewritten by
    the transport flag. It returns [True] exactly when the answer has status
    200, and then the body is the content of the target file, created or
    overwritten; with any other status, or a request exception, it returns
    [False] and leaves the filesystem as it was. *)
Theorem download_cover_single_attempt (self : downloader) (w : world)
    (url cover_path : string) (fs : gmap string bytes) :
  let u := requested_url self url in
  let '(result, ev, fs') := download_cover self w url cover_path fs in
  ev = [Get u]
  ∧ (result = true ↔ ∃ body, remote w u = Response 200 body)
  ∧ (∀ body, remote w u = Response 200 body →
       result = true ∧ fs' = <[cover_path := body]> fs
       ∧ fs' !! cover_path = Some body)
  ∧ (result = false → fs' = fs).
Proof.
  unfold download_cover. simpl.
  destruct (remote w (requested_url self url)) as [sc body|].
  - destruct (decide (sc = 200%Z)) as [->|Hsc].
    + split_and!; [done|naive_solver| |done].
      intros ? [= <-]. by rewrite lookup_insert_eq.
    + split_and!; [done| |by intros ? [= ? ?]|done].
      split; [done|]. by intros [? [= ? ?]].
  - split_and!; [done| |done|done]. split; [done|]. by intros [? ?].
Qed.

(** C6. With an emulator that is neither ["pcsx2"] nor ["duckstation"],
    [download_covers] prints the configuration error and returns: nothing is
    requested and the filesystem is untouched. The same holds of [download]
    called on an object with such an emulator: it ends with that error,
    without a request or a write. *)
Theorem invalid_emulator_aborts (cover_dir gamelist_dir : string)
    (cover_type : Z) (use_ssl : bool) (emu : string) (fb : bool)
    (w : world) (fs : gmap string bytes) :
  emu ≠ "pcsx2" → emu ≠ "duckstation" →
  download_covers cover_dir gamelist_dir cover_type use_ssl emu fb w fs
  = Outcome None [Print red ("[ERROR]: Invalid emulator: " +:+ emu)] fs
  ∧ ∀ c : downloader_class,
      let o := download (Downloader c cover_dir gamelist_dir cover_type
                           use_ssl emu fb) w fs in
      raised o = None ∧ gets (trace o) = [] ∧ fs_after o = fs
      ∧ last (trace o) = Some (Print red ("[ERROR]: Invalid emulator: " +:+ emu)).
Proof.
  intros H1 H2. split.
  - unfold download_covers. by rewrite !decide_False.
  - intros c o. subst o.
    rewrite EarlyExit.download_unknown_emulator
      by (by apply EarlyExit.covers_urls_unknown).
    simpl. split_and!; [done| |done|].
    + rewrite !PassFacts.gets_app, RunFacts.get_name_list_gets,
        RunFacts.get_serial_list_gets. done.
    + by rewrite !app_assoc, last_snoc.
Qed.

(** C10. With a known emulator, a work list that is not empty and a cover
    type other than 0 and 1, [cover_urls] is never assigned and [download]
    raises [UnboundLocalError] at the submission loop: nothing is requested
    and nothing is written. *)
Theorem cover_type_out_of_range_faults (self : downloader) (w : world)
    (fs : gmap string bytes) :
  emulator self = "pcsx2" ∨ emulator self = "duckstation" →
  cover_type self ≠ 0%Z → cover_type self ≠ 1%Z →
  (get_serial_list w (gamelist_dir self) (existing_covers self fs)).2 ≠ [] →
  (∀ covers_url serial_list existing,
     cover_urls self covers_url serial_list existing = None)
  ∧ raised (download self w fs) = Some (UnboundLocalError "cover_urls")
  ∧ gets (trace (download self w fs)) = []
  ∧ fs_after (download self w fs) = fs.
Proof.
  intros Hemu H0 H1 Hw. split.
  { intros. unfold cover_urls. by rewrite !decide_False. }
  assert (∃ p, covers_urls (emulator self) = Some p) as [p Hp].
  { unfold covers_urls. destruct Hemu as [-> | ->]; eauto. }
  rewrite (EarlyExit.download_unbound self w fs p) by done. simpl.
  split_and!; [done| |done].
  by rewrite PassFacts.gets_app, RunFacts.get_name_list_gets,
       RunFacts.get_serial_list_gets.
Qed.


(** C2. For a known emulator target and cover style, the roots the program
    selects are those of the table, the candidate URL of every work item is
    [{repository_root}/{serial}.{ext}], the URL requested for it is that
    URL with [https] replaced by [http] when transport is plain, and the
    requests of the primary pass are these URLs, one per work item in
    order. The URL depends on the serial, the style, the target and the
    transport flag only. *)
Theorem url_derivation (self : downloader) (w : world)
    (fs : gmap string bytes) (t : emulator_target) (st : cover_style) :
  emulator self = target_name t → cover_type self = style_code st →
  let existing := existing_covers self fs in
  let work := (get_serial_list w (gamelist_dir self) existing).2 in
  covers_urls (emulator self)
  = Some (repository_root t Flat, repository_root t Box3D)
  ∧ cover_urls self (repository_root t st) work existing
    = Some (candidate_url t st <$> work)
  ∧ (∀ serial, serial ∈ work →
       requested_url self (candidate_url t st serial)
       = spec_url t st (use_ssl self) serial)
  ∧ (spec_url t st (use_ssl self) <$> work)
      `prefix_of` gets (trace (download self w fs)).
Proof.
  intros Hemu Hst existing work. split_and!.
  - rewrite Hemu. apply UrlFacts.covers_urls_target.
  - rewrite (RunFacts.cover_urls_style self t st) by done.
    subst work. by rewrite RunFacts.get_serial_list_filtered.
  - intros serial Hs. apply UrlFacts.requested_candidate.
    by apply (proj1 (Forall_forall _ _)
                (RunFacts.get_serial_list_fullmatch w (gamelist_dir self)
                   existing)).
  - rewrite (RunFacts.download_gets self w fs t st) by done.
    by apply prefix_app_r.
Qed.

(** C5. The fallback URL of a failed serial is built from the root and the
    extension of the other style: the default root and [.jpg] when the
    cover type is 1 (3D), the 3D root and [.png] when it is 0 (flat). In a
    run with fallback enabled the requests that follow the primary pass are
    the URLs of the other style for the serials whose first request
    failed. *)
Theorem fallback_targets_other_style (self : downloader) (w : world)
    (fs : gmap string bytes) (t : emulator_target) (st : cover_style) :
  emulator self = target_name t → cover_type self = style_code st →
  fallback self = true →
  let work :=
    (get_serial_list w (gamelist_dir self) (existing_covers self fs)).2 in
  let enc := use_ssl self in
  let failure :=
    filter (λ s, fetch_ok w (spec_url t st enc s) = false) work in
  (∀ covers_url_default covers_url_3d failed,
     fallback_urls self covers_url_default covers_url_3d failed
     = (λ '(serial, _),
          match st with
          | Box3D => covers_url_default +:+ "/" +:+ serial +:+ ".jpg"
          | Flat => covers_url_3d +:+ "/" +:+ serial +:+ ".png"
          end) <$> failed)
  ∧ (∀ failed,
       fallback_urls self (repository_root t Flat) (repository_root t Box3D)
         failed
       = candidate_url t (other_style st) <$> failed.*1)
  ∧ gets (trace (download self w fs))
    = (spec_url t st enc <$> work)
      ++ (spec_url t (other_style st) enc <$> failure).
Proof.
  intros Hemu Hst Hfb work enc failure. split_and!.
  - intros rd r3 failed. unfold fallback_urls, fallback_source. rewrite Hst.
    destruct st; simpl; apply list_fmap_ext; by intros ? [].
  - intros failed. by apply RunFacts.fallback_urls_style.
  - rewrite (RunFacts.download_gets self w fs t st) by done.
    by rewrite Hfb.
Qed.

(** C3. The work list is the catalog (the serials of the cache file, as
    [get_serial_list] returns them when nothing is excluded) without the
    serials of the existing covers. Building the URLs filters the existing
    covers out again, whatever list it is given, which changes nothing on
    the work list. No URL requested in a run has an existing cover's serial
    as its stem. *)
Theorem existing_covers_not_requested (self : downloader) (w : world)
    (fs : gmap string bytes) :
  let existing := existing_covers self fs in
  let work := (get_serial_list w (gamelist_dir self) existing).2 in
  (∀ s, s ∈ work
        ↔ s ∈ (get_serial_list w (gamelist_dir self) []).2 ∧ s ∉ existing)
  ∧ (∀ covers_url serial_list urls,
       cover_urls self covers_url serial_list existing = Some urls →
       ∃ ext, urls = (λ s, covers_url +:+ "/" +:+ s +:+ ext)
                       <$> filter (λ s, s ∉ existing) serial_list)
  ∧ filter (λ s, s ∉ existing) work = work
  ∧ (∀ s url, s ∈ existing → url ∈ gets (trace (download self w fs)) →
              path_stem url ≠ s).
Proof.
  intros existing work.
  assert (∀ s, s ∈ work → s ∉ existing) as Hwork.
  { intros s Hs. subst work. unfold get_serial_list in Hs.
    destruct (texts w !! gamelist_dir self); [|by apply elem_of_nil in Hs].
    by apply list_elem_of_filter in Hs as [? _]. }
  pose proof (RunFacts.get_serial_list_fullmatch w (gamelist_dir self) existing)
    as Hfull. fold work in Hfull.
  split_and!.
  - intros s. subst work. unfold get_serial_list.
    destruct (texts w !! gamelist_dir self); simpl.
    + rewrite !list_elem_of_filter. split.
      * intros [? ?]. split_and!; [|done..]. apply not_elem_of_nil.
      * by intros [[_ ?] ?].
    + split; [by intros ?%elem_of_nil|by intros [?%elem_of_nil _]].
  - intros covers_url serial_list urls. unfold cover_urls.
    destruct (decide (cover_type self = 0%Z)); [intros [= <-]; by eexists|].
    destruct (decide (cover_type self = 1%Z)); [intros [= <-]; by eexists|].
    done.
  - apply RunFacts.get_serial_list_filtered.
  - intros s url Hs Hurl Hstem.
    destruct (covers_urls (emulator self)) as [p|] eqn:Hemu.
    2:{ rewrite EarlyExit.download_unknown_emulator in Hurl by done.
        simpl in Hurl.
        rewrite !PassFacts.gets_app, RunFacts.get_name_list_gets,
          RunFacts.get_serial_list_gets in Hurl. by apply elem_of_nil in Hurl. }
    destruct (EarlyExit.covers_urls_inv _ _ Hemu) as [t Ht].
    assert (∀ st, cover_type self = style_code st → False) as Hstyle.
    { intros st Hst.
      rewrite (RunFacts.download_gets self w fs t st Ht Hst) in Hurl.
      fold existing work in Hurl.
      assert (∃ st' s', s' ∈ work ∧ url = spec_url t st' (use_ssl self) s')
        as (st' & s' & Hs' & ->).
      { apply elem_of_app in Hurl as [Hurl|Hurl].
        - apply list_elem_of_fmap in Hurl as (s' & -> & ?). eauto.
        - destruct (fallback self); [|by apply elem_of_nil in Hurl].
          apply list_elem_of_fmap in Hurl as (s' & -> & Hin).
          apply list_elem_of_filter in Hin as [_ ?]. eauto. }
      rewrite UrlFacts.path_stem_spec_url in Hstem
        by (by apply (proj1 (Forall_forall _ _) Hfull)).
      subst s'. by apply (Hwork s). }
    destruct (decide (cover_type self = 0%Z)) as [H0|H0];
      [by apply (Hstyle Flat)|].
    destruct (decide (cover_type self = 1%Z)) as [H1|H1];
      [by apply (Hstyle Box3D)|].
    destruct (decide (work = [])) as [Hnil|Hnil].
    + rewrite (EarlyExit.download_nothing self w fs p) in Hurl by done.
      simpl in Hurl.
      rewrite !PassFacts.gets_app, RunFacts.get_name_list_gets,
        RunFacts.get_serial_list_gets in Hurl. by apply elem_of_nil in Hurl.
    + rewrite (EarlyExit.download_unbound self w fs p) in Hurl by done.
      simpl in Hurl.
      rewrite !PassFacts.gets_app, RunFacts.get_name_list_gets,
        RunFacts.get_serial_list_gets in Hurl. by apply elem_of_nil in Hurl.
Qed.


(** C8, as the code has it. When the dataset file is missing,
    [get_name_list] prints an error line and returns the empty mapping, and
    every lookup in it returns [None], which the report lines render as
    ["None"]; no error is raised. *)
Theorem missing_dataset_names (self : downloader) (w : world) :
  dataset_missing self w →
  (get_name_list self w).2 = ∅
  ∧ (∃ line, (get_name_list self w).1 = [Print red line])
  ∧ ∀ serial,
      serial_to_name (get_name_list self w).2 serial = None
      ∧ format_name (serial_to_name (get_name_list self w).2 serial) = "None".
Proof.
  unfold dataset_missing, get_name_list, serial_to_name.
  destruct (cls self); intros ->; simpl;
    (split_and!; [done|by eexists|intros serial; by rewrite lookup_empty]).
Qed.

(** * The properties at the sample run *)

Lemma url_derivation_witness :
  emulator Sample.pcsx2_flat = target_name Pcsx2
  ∧ cover_type Sample.pcsx2_flat = style_code Flat
  ∧ ["https://raw.githubusercontent.com/xlenore/ps2-covers/main/covers/default/SLUS-20312.jpg";
     "https://raw.githubusercontent.com/xlenore/ps2-covers/main/covers/default/SCUS-97101.jpg"]
      `prefix_of` gets (trace (download Sample.pcsx2_flat Sample.w ∅)).
Proof.
  split; [reflexivity|]. split; [reflexivity|].
  exact (proj2 (proj2 (proj2
           (url_derivation Sample.pcsx2_flat Sample.w ∅ Pcsx2 Flat
              eq_refl eq_refl)))).
Defined.

Lemma fallback_targets_other_style_witness :
  emulator Sample.pcsx2_flat = target_name Pcsx2
  ∧ cover_type Sample.pcsx2_flat = style_code Flat
  ∧ fallback Sample.pcsx2_flat = true
  ∧ gets (trace (download Sample.pcsx2_flat Sample.w ∅))
    = ["https://raw.githubusercontent.com/xlenore/ps2-covers/main/covers/default/SLUS-20312.jpg";
       "https://raw.githubusercontent.com/xlenore/ps2-covers/main/covers/default/SCUS-97101.jpg"]
      ++ ["https://raw.githubusercontent.com/xlenore/ps2-covers/main/covers/3d/SCUS-97101.png"].
Proof.
  split; [reflexivity|]. split; [reflexivity|]. split; [reflexivity|].
  exact (proj2 (proj2
           (fallback_targets_other_style Sample.pcsx2_flat Sample.w ∅
              Pcsx2 Flat eq_refl eq_refl eq_refl))).
Defined.

Lemma invalid_emulator_aborts_witness :
  "rpcs3" ≠ "pcsx2" ∧ "rpcs3" ≠ "duckstation"
  ∧ download_covers "covers" "gamelist.cache" 0 true "rpcs3" false Sample.w ∅
    = Outcome None [Print red "[ERROR]: Invalid emulator: rpcs3"] ∅.
Proof.
  split; [discriminate|]. split; [discriminate|].
  exact (proj1 (invalid_emulator_aborts "covers" "gamelist.cache" 0 true
                  "rpcs3" false Sample.w ∅
                  ltac:(discriminate) ltac:(discriminate))).
Defined.

Lemma cover_type_out_of_range_faults_witness :
  (emulator Sample.pcsx2_other = "pcsx2"
   ∨ emulator Sample.pcsx2_other = "duckstation")
  ∧ cover_type Sample.pcsx2_other ≠ 0%Z ∧ cover_type Sample.pcsx2_other ≠ 1%Z
  ∧ (get_serial_list Sample.w (gamelist_dir Sample.pcsx2_other)
       (existing_covers Sample.pcsx2_other ∅)).2 ≠ []
  ∧ raised (download Sample.pcsx2_other Sample.w ∅)
    = Some (UnboundLocalError "cover_urls").
Proof.
  split; [left; reflexivity|]. split; [discriminate|]. split; [discriminate|].
  split; [vm_compute; discriminate|].
  exact (proj1 (proj2
           (cover_type_out_of_range_faults Sample.pcsx2_other Sample.w ∅
              (or_introl eq_refl) ltac:(discriminate) ltac:(discriminate)
              ltac:(vm_compute; discriminate)))).
Defined.

Lemma missing_dataset_names_witness :
  dataset_missing Sample.pcsx2_flat Sample.w
  ∧ serial_to_name (get_name_list Sample.pcsx2_flat Sample.w).2 "SLUS-20312"
    = None.
Proof.
  split; [reflexivity|].
  exact (proj1 (proj2 (proj2
           (missing_dataset_names Sample.pcsx2_flat Sample.w eq_refl))
           "SLUS-20312")).
Defined.



(** C8 as worded fails: with the dataset missing a lookup returns [None],
    not the string ["unknown"], and the report line shows ["None"]. *)
Lemma missing_dataset_lookup_not_unknown :
  dataset_missing Sample.pcsx2_flat Sample.w
  ∧ serial_to_name (get_name_list Sample.pcsx2_flat Sample.w).2 "SLUS-20312"
    ≠ Some "unknown"
  ∧ format_name
      (serial_to_name (get_name_list Sample.pcsx2_flat Sample.w).2 "SLUS-20312")
    ≠ "unknown"
  ∧ Print green "SLUS-20312 | None"
      ∈ trace (download Sample.pcsx2_flat Sample.w ∅).
Proof.
  split; [reflexivity|]. split; [discriminate|]. split; [discriminate|].
  rewrite SampleRun.run_trace. set_solver.
Qed.

(** * Facts about the cover files *)

Module CoverFacts.
Import StrFacts ReFacts PassFacts UrlFacts.

Lemma strip_prefix_Some (p s r : string) :
  Str.strip_prefix p s = Some r ↔ s = p +:+ r.
Proof.
  revert s. induction p as [|a p IH]; intros s.
  - rewrite app_nil_l. simpl. split; congruence.
  - rewrite app_cons. destruct s as [|b s]; simpl; [split; congruence|].
    destruct (decide (a = b)) as [->|Hab].
    + rewrite IH. split; congruence.
    + split; congruence.
Qed.

Lemma endswith_app (a suf : string) : Str.endswith suf (a +:+ suf) = true.
Proof.
  induction a as [|c a IH].
  - rewrite app_nil_l. destruct suf; cbn [Str.endswith]; by rewrite decide_True.
  - rewrite app_cons. cbn [Str.endswith]. rewrite IH. by destruct (decide _).
Qed.

Lemma endswith_inv (suf s : string) :
  Str.endswith suf s = true → ∃ a, s = a +:+ suf.
Proof.
  induction s as [|c s IH]; cbn [Str.endswith].
  - destruct (decide ("" = suf)) as [<-|]; [by exists ""|done].
  - destruct (decide (String c s = suf)) as [<-|]; [by exists ""|].
    intros [a ->]%IH. by exists (String c a).
Qed.

Lemma listdir_elem (fs : gmap string bytes) (dir name : string) :
  name ∈ listdir fs dir
  ↔ is_Some (fs !! (dir +:+ "/" +:+ name)) ∧ Str.contains "/" name = false.
Proof.
  unfold listdir. rewrite list_elem_of_omap. split.
  - intros (path & Hin & Hname).
    apply elem_of_elements, elem_of_dom in Hin.
    destruct (Str.strip_prefix (dir +:+ "/") path) as [name'|] eqn:Hp; [|done].
    apply strip_prefix_Some in Hp. rewrite app_assoc in Hp. subst path.
    destruct (Str.contains "/" name') eqn:Hc; [done|].
    by injection Hname as <-.
  - intros [Hin Hc]. exists (dir +:+ "/" +:+ name). split.
    + by apply elem_of_elements, elem_of_dom.
    + rewrite <- app_assoc, strip_prefix_app. by rewrite Hc.
Qed.

(** The serials [existing_covers] returns are the stems of the [.jpg] and
    [.png] files directly in the cover directory. *)
Lemma existing_covers_elem (self : downloader) (fs : gmap string bytes)
    (s : string) :
  s ∈ existing_covers self fs
  ↔ ∃ name, is_Some (fs !! (cover_dir self +:+ "/" +:+ name))
            ∧ Str.contains "/" name = false
            ∧ (Str.endswith ".jpg" name = true ∨ Str.endswith ".png" name = true)
            ∧ path_stem name = s.
Proof.
  unfold existing_covers, glob_suffix.
  rewrite elem_of_remove_dups, list_elem_of_fmap. split.
  - intros (name & -> & Hin). exists name.
    apply elem_of_app in Hin as [Hin|Hin];
      apply list_elem_of_filter in Hin as [Hsuf Hin];
      apply listdir_elem in Hin as [? ?]; split_and!; auto.
  - intros (name & Hfs & Hc & Hsuf & <-). exists name. split; [done|].
    apply elem_of_app.
    destruct Hsuf as [Hsuf|Hsuf]; [left|right];
      (apply list_elem_of_filter; split; [done|by apply listdir_elem]).
Qed.

Lemma path_name_plain (name : string) :
  Str.contains "/" name = false → name ≠ "" → name ≠ "." →
  path_name name = name.
Proof.
  intros Hs Hne Hdot. unfold path_name, path_parts.
  rewrite (split_absent _ name Hs), filter_cons_True by done.
  by rewrite filter_nil.
Qed.

Lemma path_stem_plain (name ext : string) :
  Str.contains "/" name = false → name ≠ "" →
  Str.contains "/" ext = false → Str.rfind "." ext = Some 0 →
  String.length ext = 4 →
  path_stem (name +:+ ext) = name.
Proof.
  intros Hname Hne Hext Hdot Hlen. unfold path_stem.
  rewrite path_name_plain.
  - rewrite rfind_app, Hdot, length_app, Hlen, Nat.add_0_r.
    destruct name as [|a name]; [done|]. simpl String.length.
    replace (0 <? S (String.length name)) with true
      by (symmetry; apply Nat.ltb_lt; lia).
    replace (S (String.length name) <? S (String.length name) + 4 - 1)
      with true by (symmetry; apply Nat.ltb_lt; lia).
    simpl andb. cbv iota.
    apply (substring_app_l (String a name) ext).
  - by rewrite contains_app, Hname, Hext.
  - destruct name; [done|]. by rewrite app_cons.
  - destruct name as [|a [|b name]]; [done| |by rewrite !app_cons].
    rewrite app_cons, app_nil_l. destruct ext; [done|]. done.
Qed.

End CoverFacts.

(** * Facts about the files a pass writes *)

Module FsFacts.
Import StrFacts ReFacts PassFacts UrlFacts CoverFacts.

Lemma download_cover_fs_mono self w url cover_path (fs : gmap string bytes) p :
  is_Some (fs !! p) →
  is_Some ((download_cover self w url cover_path fs).2 !! p).
Proof.
  intros Hp. unfold download_cover.
  destruct (remote w (requested_url self url)) as [sc body|]; [|done].
  destruct (decide (sc = 200%Z)); [|done]. simpl.
  apply lookup_insert_is_Some'. by right.
Qed.

Lemma download_cover_fs_frame self w url cover_path (fs : gmap string bytes) p :
  p ≠ cover_path →
  (download_cover self w url cover_path fs).2 !! p = fs !! p.
Proof.
  intros Hp. unfold download_cover.
  destruct (remote w (requested_url self url)) as [sc body|]; [|done].
  destruct (decide (sc = 200%Z)); [|done]. simpl.
  by rewrite lookup_insert_ne.
Qed.

Lemma download_cover_fs_fail self w url cover_path (fs : gmap string bytes) :
  fetch_ok w (requested_url self url) = false →
  (download_cover self w url cover_path fs).2 = fs.
Proof.
  unfold download_cover, fetch_ok.
  destruct (remote w (requested_url self url)) as [sc body|]; [|done].
  destruct (decide (sc = 200%Z)); [|done].
  by rewrite bool_decide_true.
Qed.

Lemma download_cover_fs_ok self w url cover_path (fs : gmap string bytes) :
  fetch_ok w (requested_url self url) = true →
  is_Some ((download_cover self w url cover_path fs).2 !! cover_path).
Proof.
  unfold download_cover, fetch_ok.
  destruct (remote w (requested_url self url)) as [sc body|]; [|done].
  destruct (decide (sc = 200%Z)); [|by rewrite bool_decide_false].
  intros _. simpl. rewrite lookup_insert_eq. by eexists.
Qed.

Lemma run_pool_fs_mono self w urls (fs : gmap string bytes) p :
  is_Some (fs !! p) → is_Some ((run_pool self w urls fs).2 !! p).
Proof.
  revert fs. induction urls as [|u urls IH]; intros fs Hp; [done|].
  cbn [run_pool].
  pose proof (download_cover_fs_mono self w u
                (joinpath (cover_dir self) (path_name u)) fs p Hp) as H1.
  destruct (download_cover self w u _ fs) as [[r ev] fs1].
  specialize (IH fs1 H1). by destruct (run_pool self w urls fs1) as [[rs evs] fs2].
Qed.

(** A pass leaves alone every path it does not store a cover at. *)
Lemma run_pool_fs_frame self w urls (fs : gmap string bytes) p :
  (∀ u, u ∈ urls → fetch_ok w (requested_url self u) = true →
        joinpath (cover_dir self) (path_name u) ≠ p) →
  (run_pool self w urls fs).2 !! p = fs !! p.
Proof.
  revert fs. induction urls as [|u urls IH]; intros fs Hp; [done|].
  cbn [run_pool].
  assert ((download_cover self w u (joinpath (cover_dir self) (path_name u))
             fs).2 !! p = fs !! p) as H1.
  { destruct (fetch_ok w (requested_url self u)) eqn:Hok.
    - apply download_cover_fs_frame. intros ->.
      apply (Hp u); [apply elem_of_cons; by left|done..].
    - by rewrite download_cover_fs_fail. }
  destruct (download_cover self w u _ fs) as [[r ev] fs1].
  assert ((run_pool self w urls fs1).2 !! p = fs1 !! p) as H2.
  { apply IH. intros u' Hu'. apply Hp, elem_of_cons. by right. }
  destruct (run_pool self w urls fs1) as [[rs evs] fs2]. simpl in *.
  by rewrite H2.
Qed.

(** A pass stores a cover for every URL whose fetch succeeds. *)
Lemma run_pool_fs_ok self w urls (fs : gmap string bytes) u :
  u ∈ urls → fetch_ok w (requested_url self u) = true →
  is_Some ((run_pool self w urls fs).2
             !! joinpath (cover_dir self) (path_name u)).
Proof.
  revert fs. induction urls as [|u' urls IH]; intros fs Hu Hok.
  - by apply elem_of_nil in Hu.
  - cbn [run_pool].
    pose proof (download_cover_fs_ok self w u
                  (joinpath (cover_dir self) (path_name u)) fs Hok) as H1.
    apply elem_of_cons in Hu as [<-|Hu].
    + destruct (download_cover self w u _ fs) as [[r ev] fs1].
      pose proof (run_pool_fs_mono self w urls fs1 _ H1) as H2.
      by destruct (run_pool self w urls fs1) as [[rs evs] fs2].
    + destruct (download_cover self w u' _ fs) as [[r ev] fs1].
      specialize (IH fs1 Hu Hok).
      by destruct (run_pool self w urls fs1) as [[rs evs] fs2].
Qed.

(** The files after a pass are those before it and the covers fetched. *)
Lemma run_pool_fs_dom self w urls (fs : gmap string bytes) p :
  is_Some ((run_pool self w urls fs).2 !! p) →
  is_Some (fs !! p)
  ∨ ∃ u, u ∈ urls ∧ fetch_ok w (requested_url self u) = true
         ∧ p = joinpath (cover_dir self) (path_name u).
Proof.
  revert fs. induction urls as [|u urls IH]; intros fs; [by left|].
  cbn [run_pool].
  pose proof (download_cover_fs_frame self w u
                (joinpath (cover_dir self) (path_name u)) fs p) as Hfr.
  pose proof (download_cover_fs_fail self w u
                (joinpath (cover_dir self) (path_name u)) fs) as Hfail.
  destruct (download_cover self w u _ fs) as [[r ev] fs1].
  specialize (IH fs1).
  destruct (run_pool self w urls fs1) as [[rs evs] fs2]. simpl in *.
  intros [H|(u' & ? & ? & ?)]%IH.
  - destruct (fetch_ok w (requested_url self u)) eqn:Hok.
    + destruct (decide (p = joinpath (cover_dir self) (path_name u)))
        as [->|Hne].
      * right. exists u. split_and!; [apply elem_of_cons; by left|done..].
      * left. by rewrite <- Hfr.
    + left. by rewrite <- Hfail.
  - right. exists u'. split_and!; [apply elem_of_cons; by right|done..].
Qed.

(** What the stage after the primary pass does to the files: it runs the
    fallback pass when fallback is enabled, and nothing otherwise. *)
Lemma after_primary_fs self w rd r3 failed (fs : gmap string bytes) :
  (after_primary self w rd r3 failed fs).2
  = if fallback self
    then (run_pool self w (fallback_urls self rd r3 failed) fs).2
    else fs.
Proof.
  unfold after_primary. case_bool_decide as Hnil; simpl.
  - destruct (fallback self); [|done].
    by destruct (run_pool self w _ fs) as [[rs ev] fs'].
  - rewrite Hnil. destruct (fallback self); [|done].
    unfold fallback_urls. by destruct (fallback_source self rd r3).
Qed.

End FsFacts.

(** * Facts about a whole run with a known emulator and cover style *)

Module WholeRun.
Import StrFacts ReFacts PassFacts UrlFacts RunFacts CoverFacts FsFacts.

Lemma collect_primary_lines name_list (f : string → bool) urls :
  (collect_primary name_list (zip (f <$> urls) urls)).1
  = (λ u, Print green (path_stem u +:+ " | "
                       +:+ format_name (serial_to_name name_list (path_stem u))))
      <$> filter (λ u, f u = true) urls.
Proof.
  induction urls as [|u urls IH]; [done|].
  cbn [fmap list_fmap zip zip_with collect_primary].
  change (zip_with pair (list_fmap _ _ f urls) urls)
    with (zip (f <$> urls) urls).
  destruct (collect_primary name_list (zip (f <$> urls) urls))
    as [ev failed]. simpl in IH.
  destruct (f u) eqn:Hf.
  - rewrite filter_cons_True by done. simpl. by rewrite IH.
  - rewrite filter_cons_False by (by rewrite Hf). done.
Qed.

Lemma fmap_pair_fst {A B} (g : A → B) (l : list A) :
  ((λ x, (x, g x)) <$> l).*1 = l.
Proof. induction l as [|x l IH]; [done|]. simpl. by f_equal. Qed.

Section known.
Context (self : downloader) (w : world) (fs : gmap string bytes).
Context (t : emulator_target) (st : cover_style).
Context (Hemu : emulator self = target_name t).
Context (Hst : cover_type self = style_code st).

Let work : list string :=
  (get_serial_list w (gamelist_dir self) (existing_covers self fs)).2.
Let name_list : gmap string string := (get_name_list self w).2.
Let ok (s : string) : bool := fetch_ok w (spec_url t st (use_ssl self) s).
Let ok' (s : string) : bool :=
  fetch_ok w (spec_url t (other_style st) (use_ssl self) s).
Let failures : list string := filter (λ s, ok s = false) work.
Let pool := run_pool self w (candidate_url t st <$> work) fs.
Let failed : list (string * option string) :=
  (λ s, (s, serial_to_name name_list s)) <$> failures.
Let aft :=
  after_primary self w (repository_root t Flat) (repository_root t Box3D)
    failed pool.2.

Lemma work_fullmatch : Forall (λ s, fullmatch SERIAL_RE s = true) work.
Proof. apply get_serial_list_fullmatch. Qed.

Lemma failures_fullmatch : Forall (λ s, fullmatch SERIAL_RE s = true) failures.
Proof.
  apply Forall_forall. intros s [_ Hs]%list_elem_of_filter.
  by apply (proj1 (Forall_forall _ _) work_fullmatch).
Qed.

Lemma primary_results :
  pool.1.1 = ok <$> work.
Proof.
  unfold pool. rewrite run_pool_results, <- list_fmap_compose.
  apply Forall_fmap_ext. eapply Forall_impl; [exact work_fullmatch|].
  intros s Hs. unfold ok. simpl. by rewrite requested_candidate.
Qed.

Lemma primary_failed :
  (collect_primary name_list
     (zip pool.1.1 (candidate_url t st <$> work))).2 = failed.
Proof.
  unfold pool. rewrite run_pool_results, collect_primary_failed.
  rewrite (failed_candidates name_list t st _ work work_fullmatch).
  unfold failed, failures. f_equal.
  pose proof work_fullmatch as Hfull.
  induction Hfull as [|s l Hs _ IH]; [done|].
  rewrite !filter_cons, IH. unfold ok.
  by rewrite (requested_candidate self t st s Hs).
Qed.

Lemma primary_lines :
  (collect_primary name_list
     (zip pool.1.1 (candidate_url t st <$> work))).1
  = (λ s, Print green (s +:+ " | "
                       +:+ format_name (serial_to_name name_list s)))
      <$> filter (λ s, ok s = true) work.
Proof.
  unfold pool. rewrite run_pool_results, collect_primary_lines.
  pose proof work_fullmatch as Hfull.
  induction Hfull as [|s l Hs _ IH]; [done|].
  rewrite fmap_cons, !filter_cons. unfold ok.
  rewrite (requested_candidate self t st s Hs).
  destruct (decide (fetch_ok w (spec_url t st (use_ssl self) s) = true));
    [|exact IH].
  rewrite !fmap_cons, (path_stem_candidate t st s Hs). f_equal. exact IH.
Qed.

(** The run with something to do, step by step. *)
Lemma download_known :
  work ≠ [] →
  download self w fs
  = Outcome None
      ((get_name_list self w).1
       ++ (get_serial_list w (gamelist_dir self) (existing_covers self fs)).1
       ++ pool.1.2
       ++ (collect_primary name_list
             (zip pool.1.1 (candidate_url t st <$> work))).1
       ++ aft.1)
      aft.2.
Proof.
  intros Hne. pose proof primary_failed as Hf.
  unfold aft, failed, failures, pool, name_list, work in *.
  unfold download.
  pose proof (get_serial_list_filtered w (gamelist_dir self)
                (existing_covers self fs)) as Hfilt.
  destruct (get_name_list self w) as [ev_names nl].
  destruct (get_serial_list w _ _) as [ev_serials wk]. simpl in *.
  rewrite Hemu, covers_urls_target.
  replace (if decide (cover_type self = 1%Z) then repository_root t Box3D
           else repository_root t Flat) with (repository_root t st)
    by (rewrite Hst; by destruct st).
  rewrite (cover_urls_style self t st) by done. rewrite Hfilt.
  rewrite decide_False by done.
  destruct (run_pool self w _ fs) as [[results ev_pool] fs1]. simpl in *.
  destruct (collect_primary nl _) as [ev_lines fl]. simpl in *. subst fl.
  by destruct (after_primary self w _ _ _ fs1) as [ev_after fs2].
Qed.

(** The files after the run: the primary pass, then the fallback pass
    over the failures when fallback is enabled. *)
Lemma download_fs_after :
  fs_after (download self w fs)
  = if fallback self
    then (run_pool self w (candidate_url t (other_style st) <$> failures)
            pool.2).2
    else pool.2.
Proof.
  destruct (decide (work = [])) as [Hnil|Hne].
  - rewrite (EarlyExit.download_nothing self w fs
               (repository_root t Flat, repository_root t Box3D))
      by (by rewrite ?Hemu, ?covers_urls_target).
    unfold failures, pool. rewrite Hnil. simpl. by destruct (fallback self).
  - rewrite download_known by done. simpl. unfold aft.
    rewrite after_primary_fs, (fallback_urls_style self t st) by done.
    unfold failed. by rewrite fmap_pair_fst.
Qed.

End known.

End WholeRun.

(** * Facts about the covers a run leaves behind *)

Module RunFiles.
Import StrFacts ReFacts PassFacts UrlFacts RunFacts CoverFacts FsFacts WholeRun.

Lemma cover_name_facts st s :
  fullmatch SERIAL_RE s = true →
  let name := s +:+ "." +:+ style_ext st in
  Str.contains "/" name = false ∧ name ≠ "" ∧ name ≠ "."
  ∧ (Str.endswith ".jpg" name = true ∨ Str.endswith ".png" name = true)
  ∧ path_stem name = s.
Proof.
  intros (Hne & Hslash & _)%serial_plain.
  destruct (style_ext_facts st) as (Hext & _ & Hdot & Hlen). simpl.
  split_and!.
  - by rewrite contains_app, Hslash, Hext.
  - destruct s; [done|]. by rewrite app_cons.
  - destruct s as [|a [|b s]]; [done| |by rewrite !app_cons].
    rewrite app_cons, app_nil_l. by destruct st.
  - destruct st; [left|right]; apply endswith_app.
  - by apply path_stem_plain.
Qed.

(** Where the cover of a candidate URL is stored. *)
Lemma cover_path_candidate self t st s :
  fullmatch SERIAL_RE s = true →
  joinpath (cover_dir self) (path_name (candidate_url t st s))
  = cover_file self st s.
Proof.
  intros Hs. destruct (cover_name_facts st s Hs) as (? & ? & ? & _).
  unfold candidate_url. rewrite path_name_join by done.
  unfold joinpath, cover_file. by rewrite decide_False.
Qed.

(** A cover file in the directory makes its serial an existing cover. *)
Lemma cover_file_existing self (fs : gmap string bytes) st s :
  fullmatch SERIAL_RE s = true →
  is_Some (fs !! cover_file self st s) → s ∈ existing_covers self fs.
Proof.
  intros Hs Hfs. destruct (cover_name_facts st s Hs) as (? & _ & _ & ? & ?).
  apply existing_covers_elem. by exists (s +:+ "." +:+ style_ext st).
Qed.

(** The only name under which a cover file is listed. *)
Lemma cover_file_name self st s name :
  cover_dir self +:+ "/" +:+ name = cover_file self st s →
  name = s +:+ "." +:+ style_ext st.
Proof.
  unfold cover_file. intros H. apply (inj (String.app _)) in H.
  by apply (inj (String.app _)) in H.
Qed.

Lemma existing_covers_mono self (fs fs' : gmap string bytes) s :
  (∀ p, is_Some (fs !! p) → is_Some (fs' !! p)) →
  s ∈ existing_covers self fs → s ∈ existing_covers self fs'.
Proof.
  intros Hsub. rewrite !existing_covers_elem.
  intros (name & ? & ? & ? & ?). exists name. split_and!; auto.
Qed.

Lemma work_elem w path existing s :
  s ∈ (get_serial_list w path existing).2
  ↔ s ∈ (get_serial_list w path []).2 ∧ s ∉ existing.
Proof.
  unfold get_serial_list. destruct (texts w !! path); simpl.
  - rewrite !list_elem_of_filter. split.
    + intros [? ?]. split_and!; [|done..]. apply not_elem_of_nil.
    + by intros [[_ ?] ?].
  - split; [by intros ?%elem_of_nil|by intros [?%elem_of_nil _]].
Qed.

Lemma work_not_existing w path existing s :
  s ∈ (get_serial_list w path existing).2 → s ∉ existing.
Proof. by intros [_ ?]%work_elem. Qed.

Lemma work_NoDup w path existing : NoDup (get_serial_list w path existing).2.
Proof.
  unfold get_serial_list. destruct (texts w !! path); simpl.
  - apply NoDup_filter, NoDup_remove_dups.
  - apply NoDup_nil_2.
Qed.

(** Either the run requests nothing and writes nothing, or the emulator and
    the cover style are known. *)
Lemma download_cases self w fs :
  (gets (trace (download self w fs)) = [] ∧ fs_after (download self w fs) = fs)
  ∨ ∃ t st, emulator self = target_name t ∧ cover_type self = style_code st.
Proof.
  destruct (covers_urls (emulator self)) as [p|] eqn:Hemu.
  2:{ left. rewrite EarlyExit.download_unknown_emulator by done. simpl.
      by rewrite !gets_app, get_name_list_gets, get_serial_list_gets. }
  destruct (EarlyExit.covers_urls_inv _ _ Hemu) as [t Ht].
  destruct (decide (cover_type self = 0%Z)) as [H0|H0];
    [right; by exists t, Flat|].
  destruct (decide (cover_type self = 1%Z)) as [H1|H1];
    [right; by exists t, Box3D|].
  left.
  destruct (decide ((get_serial_list w (gamelist_dir self)
                       (existing_covers self fs)).2 = [])) as [Hnil|Hnil].
  - rewrite (EarlyExit.download_nothing self w fs p) by done. simpl.
    by rewrite !gets_app, get_name_list_gets, get_serial_list_gets.
  - rewrite (EarlyExit.download_unbound self w fs p) by done. simpl.
    by rewrite !gets_app, get_name_list_gets, get_serial_list_gets.
Qed.

Section known.
Context (self : downloader) (w : world) (fs : gmap string bytes).
Context (t : emulator_target) (st : cover_style).
Context (Hemu : emulator self = target_name t).
Context (Hst : cover_type self = style_code st).

Let work : list string :=
  (get_serial_list w (gamelist_dir self) (existing_covers self fs)).2.
Let ok (s : string) : bool := fetch_ok w (spec_url t st (use_ssl self) s).
Let ok' (s : string) : bool :=
  fetch_ok w (spec_url t (other_style st) (use_ssl self) s).
Let fs' : gmap string bytes := fs_after (download self w fs).

(** The paths a pass over the candidate URLs of some serials stores at. *)
Lemma pass_paths st' (l : list string) u :
  Forall (λ s, fullmatch SERIAL_RE s = true) l →
  u ∈ candidate_url t st' <$> l →
  ∃ s, s ∈ l ∧ u = candidate_url t st' s
       ∧ joinpath (cover_dir self) (path_name u) = cover_file self st' s
       ∧ requested_url self u = spec_url t st' (use_ssl self) s.
Proof.
  intros Hl (s & -> & Hs)%list_elem_of_fmap. exists s.
  pose proof (proj1 (Forall_forall _ _) Hl s Hs) as Hfull.
  split_and!; [done..| |].
  - by apply cover_path_candidate.
  - by apply requested_candidate.
Qed.

Lemma run_keeps_files p : is_Some (fs !! p) → is_Some (fs' !! p).
Proof.
  intros Hp. unfold fs'. rewrite (download_fs_after self w fs t st) by done.
  destruct (fallback self); repeat apply run_pool_fs_mono; done.
Qed.

Lemma run_stores_primary s :
  s ∈ work → ok s = true → is_Some (fs' !! cover_file self st s).
Proof.
  intros Hs Hok. unfold fs'.
  rewrite (download_fs_after self w fs t st) by done.
  pose proof (proj1 (Forall_forall _ _) (work_fullmatch self w fs) s Hs)
    as Hfull.
  assert (is_Some ((run_pool self w (candidate_url t st <$> work) fs).2
                     !! cover_file self st s)) as H1.
  { rewrite <- (cover_path_candidate self t st s Hfull).
    apply run_pool_fs_ok.
    - apply list_elem_of_fmap. by exists s.
    - by rewrite requested_candidate. }
  destruct (fallback self); [by apply run_pool_fs_mono|done].
Qed.

Lemma run_stores_fallback s :
  fallback self = true → s ∈ work → ok s = false → ok' s = true →
  is_Some (fs' !! cover_file self (other_style st) s).
Proof.
  intros Hfb Hs Hok Hok'. unfold fs'.
  rewrite (download_fs_after self w fs t st), Hfb by done.
  pose proof (proj1 (Forall_forall _ _) (work_fullmatch self w fs) s Hs)
    as Hfull.
  rewrite <- (cover_path_candidate self t (other_style st) s Hfull).
  apply run_pool_fs_ok.
  - apply list_elem_of_fmap. exists s. split; [done|].
    by apply list_elem_of_filter.
  - by rewrite requested_candidate.
Qed.

(** A file after the run was there before, or is the cover of a work item
    fetched in the primary pass or in the fallback pass. *)
Lemma run_files_origin p :
  is_Some (fs' !! p) →
  is_Some (fs !! p)
  ∨ ∃ s, s ∈ work
         ∧ ((p = cover_file self st s ∧ ok s = true)
            ∨ (p = cover_file self (other_style st) s ∧ fallback self = true
               ∧ ok s = false ∧ ok' s = true)).
Proof.
  unfold fs'. rewrite (download_fs_after self w fs t st) by done.
  pose proof (work_fullmatch self w fs) as Hfull. fold work in Hfull.
  assert (is_Some ((run_pool self w (candidate_url t st <$> work) fs).2 !! p)
          → is_Some (fs !! p)
            ∨ ∃ s, s ∈ work ∧ p = cover_file self st s ∧ ok s = true) as H1.
  { intros [?|(u & Hu & Hok & ->)]%run_pool_fs_dom; [by left|right].
    destruct (pass_paths st work u Hfull Hu) as (s & ? & -> & Hp & Hr).
    exists s. unfold ok. by rewrite <- Hr, <- Hp. }
  destruct (fallback self) eqn:Hfb.
  - intros [H|(u & Hu & Hok & ->)]%run_pool_fs_dom.
    + destruct (H1 H) as [?|(s & ? & ? & ?)]; [by left|right].
      exists s. split; [done|]. by left.
    + right.
      pose proof (failures_fullmatch self w fs t st) as Hfail.
      destruct (pass_paths (other_style st) _ u Hfail Hu)
        as (s & [Hs ?]%list_elem_of_filter & -> & Hp & Hr).
      exists s. split; [done|]. right. unfold ok'.
      by rewrite <- Hr, <- Hp.
  - intros H. destruct (H1 H) as [?|(s & ? & ? & ?)]; [by left|right].
    exists s. split; [done|]. by left.
Qed.

End known.

End RunFiles.

(** * Facts about the lines a run prints *)

Module Reports.
Import StrFacts ReFacts PassFacts UrlFacts RunFacts WholeRun.

Lemma lines_app (t1 t2 : list event) : lines (t1 ++ t2) = lines t1 ++ lines t2.
Proof. apply omap_app. Qed.

Lemma lines_Get {A} (f : A → string) (l : list A) :
  lines ((λ x, Get (f x)) <$> l) = [].
Proof. induction l as [|x l IH]; done. Qed.

Lemma length_filter_bool {A} (f : A → bool) (l : list A) :
  length (filter (λ x, f x = true) l) + length (filter (λ x, f x = false) l)
  = length l.
Proof.
  induction l as [|x l IH]; [done|]. rewrite !filter_cons.
  destruct (f x); simpl; lia.
Qed.

(** The lines of the stage after the primary pass: one per failed serial,
    the fallback line when the fallback pass ran and found the cover, the
    skip line otherwise. *)
Lemma after_primary_lines self w rd r3 failed fs :
  lines (after_primary self w rd r3 failed fs).1
  = (λ '(serial, name),
       if fallback self
          && fetch_ok w (requested_url self
                           ((fallback_source self rd r3).1 +:+ "/" +:+ serial
                            +:+ (fallback_source self rd r3).2))
       then (green, serial +:+ " | " +:+ format_name name +:+ " (fallback)")
       else (yellow, "[" +:+ serial +:+ " | " +:+ format_name name
                     +:+ "] not found. Skipping..."))
      <$> failed.
Proof.
  unfold after_primary, fallback_urls.
  destruct (fallback_source self rd r3) as [base ext] eqn:Hsrc. simpl.
  destruct (fallback self); simpl.
  - case_bool_decide as Hnil; [|by rewrite Hnil]. simpl.
    pose proof (run_pool_results self w
      ((λ '(serial, _), base +:+ "/" +:+ serial +:+ ext) <$> failed) fs) as Hr.
    pose proof (run_pool_events self w
      ((λ '(serial, _), base +:+ "/" +:+ serial +:+ ext) <$> failed) fs) as He.
    destruct (run_pool self w _ fs) as [[rs ev] fs1]. simpl in *.
    subst rs ev. rewrite lines_app, lines_Get. simpl. clear Hnil.
    induction failed as [|[serial name] failed IH]; [done|].
    rewrite !fmap_cons. cbn [zip zip_with fmap list_fmap omap list_omap].
    destruct (fetch_ok w _); simpl; f_equal; exact IH.
  - rewrite andb_false_r. case_bool_decide as Hnil; [|by rewrite Hnil].
    simpl. clear Hnil.
    induction failed as [|[serial name] failed IH]; [done|].
    simpl. f_equal. exact IH.
Qed.

Lemma fallback_source_style self t st :
  cover_type self = style_code st →
  ∀ s, (fallback_source self (repository_root t Flat)
          (repository_root t Box3D)).1 +:+ "/" +:+ s
       +:+ (fallback_source self (repository_root t Flat)
              (repository_root t Box3D)).2
       = candidate_url t (other_style st) s.
Proof. unfold fallback_source. intros -> s. by destruct st. Qed.

End Reports.

(** * Further properties of the code *)

(** X1. The URL built for a serial names the serial: its stem, which the
    collection loop reads back, is the serial, its name is [serial.ext], and
    the cover is stored at [cover_dir/serial.ext]. *)
Theorem cover_url_names_serial (covers_url dir s ext : string) :
  fullmatch SERIAL_RE s = true → ext = ".jpg" ∨ ext = ".png" →
  let url := covers_url +:+ "/" +:+ s +:+ ext in
  path_stem url = s
  ∧ path_name url = s +:+ ext
  ∧ joinpath dir (path_name url) = dir +:+ "/" +:+ s +:+ ext.
Proof.
  intros (Hne & Hslash & _)%ReFacts.serial_plain Hext url. subst url.
  assert (Str.contains "/" ext = false ∧ Str.rfind "." ext = Some 0
          ∧ String.length ext = 4) as (? & ? & ?)
    by (by destruct Hext as [-> | ->]).
  assert (path_name (covers_url +:+ "/" +:+ s +:+ ext) = s +:+ ext) as Hname.
  { apply StrFacts.path_name_join.
    - rewrite StrFacts.contains_app. by rewrite Hslash.
    - destruct s; [done|]. by rewrite StrFacts.app_cons.
    - destruct s as [|a [|b s]]; [done| |by rewrite !StrFacts.app_cons].
      rewrite StrFacts.app_cons, StrFacts.app_nil_l.
      by destruct Hext as [-> | ->]. }
  split_and!.
  - by apply StrFacts.path_stem_join.
  - done.
  - rewrite Hname. unfold joinpath. rewrite decide_False; [done|].
    destruct s; [done|]. by rewrite StrFacts.app_cons.
Qed.

(** X3. A cover that [download_cover] fetches for the URL of a serial is
    stored at [cover_dir/serial.ext] with the body received, counts as an
    existing cover from then on, and so is left out of every later work
    list. *)
Theorem fetched_cover_is_existing (self : downloader) (w : world)
    (fs : gmap string bytes) (t : emulator_target) (st : cover_style)
    (s : string) (body : bytes) :
  fullmatch SERIAL_RE s = true →
  remote w (spec_url t st (use_ssl self) s) = Response 200 body →
  let url := candidate_url t st s in
  let fs' :=
    (download_cover self w url (joinpath (cover_dir self) (path_name url)) fs).2
  in
  fs' !! cover_file self st s = Some body
  ∧ s ∈ existing_covers self fs'
  ∧ ∀ w' path, s ∉ (get_serial_list w' path (existing_covers self fs')).2.
Proof.
  intros Hs Hr url fs'.
  assert (fs' !! cover_file self st s = Some body) as Hfile.
  { subst fs' url. rewrite RunFiles.cover_path_candidate by done.
    unfold download_cover. rewrite UrlFacts.requested_candidate, Hr by done.
    rewrite decide_True by done. simpl. apply lookup_insert_eq. }
  assert (s ∈ existing_covers self fs') as Hex
    by (apply (RunFiles.cover_file_existing self fs' st s Hs); by eexists).
  split_and!; [done..|].
  intros w' path Hin. by apply RunFiles.work_not_existing in Hin.
Qed.

(** X4. With the cache file and the remote end unchanged, the work list of
    a second run is made of the serials the first run left without a cover:
    those of its work list whose request failed and, when fallback is
    enabled, whose fallback request failed too. *)
Theorem second_run_work_list (self : downloader) (w : world)
    (fs : gmap string bytes) (t : emulator_target) (st : cover_style) :
  emulator self = target_name t → cover_type self = style_code st →
  let enc := use_ssl self in
  let work1 :=
    (get_serial_list w (gamelist_dir self) (existing_covers self fs)).2 in
  let fs' := fs_after (download self w fs) in
  let work2 :=
    (get_serial_list w (gamelist_dir self) (existing_covers self fs')).2 in
  ∀ s, s ∈ work2
       ↔ s ∈ work1
         ∧ fetch_ok w (spec_url t st enc s) = false
         ∧ (fallback self = true →
            fetch_ok w (spec_url t (other_style st) enc s) = false).
Proof.
  intros Hemu Hst enc work1 fs' work2 s. subst work1 work2 fs' enc.
  rewrite (RunFiles.work_elem w _ (existing_covers self (fs_after _))).
  rewrite (RunFiles.work_elem w _ (existing_covers self fs)).
  split.
  - intros [Hcat Hnew].
    assert (s ∉ existing_covers self fs) as Hold.
    { intros Hold. apply Hnew.
      eapply RunFiles.existing_covers_mono; [|exact Hold].
      intros p. by apply (RunFiles.run_keeps_files self w fs t st). }
    assert (s ∈ (get_serial_list w (gamelist_dir self)
                   (existing_covers self fs)).2) as Hwork
      by (by apply RunFiles.work_elem).
    pose proof (proj1 (Forall_forall _ _)
                  (WholeRun.work_fullmatch self w fs) s Hwork) as Hfull.
    assert (fetch_ok w (spec_url t st (use_ssl self) s) = false) as Hok.
    { destruct (fetch_ok w (spec_url t st (use_ssl self) s)) eqn:Hok; [|done].
      destruct Hnew.
      apply (RunFiles.cover_file_existing self _ st s Hfull).
      by apply (RunFiles.run_stores_primary self w fs t st). }
    split_and!; [done..|]. intros Hfb.
    destruct (fetch_ok w (spec_url t (other_style st) (use_ssl self) s))
      eqn:Hok'; [|done].
    destruct Hnew.
    apply (RunFiles.cover_file_existing self _ (other_style st) s Hfull).
    by apply (RunFiles.run_stores_fallback self w fs t st).
  - intros ([Hcat Hold] & Hok & Hok'). split; [done|]. intros Hnew.
    apply CoverFacts.existing_covers_elem in Hnew
      as (name & Hfile & Hslash & Hsuf & Hstem).
    apply (RunFiles.run_files_origin self w fs t st Hemu Hst) in Hfile
      as [Hfile|(s' & Hs' & Hcase)].
    + apply Hold, CoverFacts.existing_covers_elem. by exists name.
    + pose proof (proj1 (Forall_forall _ _)
                    (WholeRun.work_fullmatch self w fs) s' Hs') as Hfull.
      assert (∀ st', cover_dir self +:+ "/" +:+ name = cover_file self st' s'
                     → s' = s) as Hname.
      { intros st' ->%RunFiles.cover_file_name.
        by destruct (RunFiles.cover_name_facts st' s' Hfull)
          as (_ & _ & _ & _ & <-). }
      destruct Hcase as [[Hp Hs]|(Hp & Hfb & _ & Hs)];
        apply Hname in Hp; subst s'.
      * by rewrite Hs in Hok.
      * by rewrite (Hok' Hfb) in Hs.
Qed.

(** X5. A run never removes or overwrites a file that was there before it:
    whatever the configuration, every file keeps its content. *)
Theorem download_keeps_existing_files (self : downloader) (w : world)
    (fs : gmap string bytes) (p : string) (b : bytes) :
  fs !! p = Some b → fs_after (download self w fs) !! p = Some b.
Proof.
  intros Hp.
  destruct (RunFiles.download_cases self w fs) as [[_ ->]|(t & st & Hemu & Hst)];
    [done|].
  rewrite (WholeRun.download_fs_after self w fs t st) by done.
  pose proof (WholeRun.work_fullmatch self w fs) as Hfull.
  pose proof (WholeRun.failures_fullmatch self w fs t st) as Hfail.
  assert (∀ st' s,
            s ∈ (get_serial_list w (gamelist_dir self)
                   (existing_covers self fs)).2 →
            cover_file self st' s ≠ p) as Hfresh.
  { intros st' s Hs <-.
    apply (RunFiles.work_not_existing _ _ _ _ Hs).
    apply (RunFiles.cover_file_existing self fs st' s); [|by eexists].
    by apply (proj1 (Forall_forall _ _) Hfull). }
  assert ((run_pool self w
             (candidate_url t st
                <$> (get_serial_list w (gamelist_dir self)
                       (existing_covers self fs)).2) fs).2 !! p = Some b)
    as H1.
  { rewrite FsFacts.run_pool_fs_frame; [done|]. intros u Hu _.
    destruct (RunFiles.pass_paths self t st _ u Hfull Hu)
      as (s & Hs & _ & -> & _). by apply Hfresh. }
  destruct (fallback self); [|done].
  rewrite FsFacts.run_pool_fs_frame; [done|]. intros u Hu _.
  destruct (RunFiles.pass_paths self t (other_style st) _ u Hfail Hu)
    as (s & [_ Hs]%list_elem_of_filter & _ & -> & _). by apply Hfresh.
Qed.

(** X6. With a known emulator and cover style, the files after a run are
    the files before it together with one cover per work item fetched:
    [serial.ext] of the style asked for when the first request succeeded,
    [serial.ext] of the other style when fallback is enabled, the first
    request failed and the fallback request succeeded. Nothing else is
    created. *)
Theorem download_creates_fetched_covers (self : downloader) (w : world)
    (fs : gmap string bytes) (t : emulator_target) (st : cover_style) :
  emulator self = target_name t → cover_type self = style_code st →
  let enc := use_ssl self in
  let work :=
    (get_serial_list w (gamelist_dir self) (existing_covers self fs)).2 in
  ∀ p, is_Some (fs_after (download self w fs) !! p)
       ↔ is_Some (fs !! p)
         ∨ ∃ s, s ∈ work
                ∧ ((p = cover_file self st s
                    ∧ fetch_ok w (spec_url t st enc s) = true)
                   ∨ (p = cover_file self (other_style st) s
                      ∧ fallback self = true
                      ∧ fetch_ok w (spec_url t st enc s) = false
                      ∧ fetch_ok w (spec_url t (other_style st) enc s) = true)).
Proof.
  intros Hemu Hst enc work p. split.
  - by apply (RunFiles.run_files_origin self w fs t st).
  - intros [Hp|(s & Hs & [[-> Hok]|(-> & Hfb & Hok & Hok')])].
    + by apply (RunFiles.run_keeps_files self w fs t st).
    + by apply (RunFiles.run_stores_primary self w fs t st).
    + by apply (RunFiles.run_stores_fallback self w fs t st).
Qed.

(** X8. When the cache file is missing and the emulator is known,
    [download] reports the missing file, then reports that all covers have
    been downloaded, and returns without a request or a write, whatever the
    cover type. *)
Theorem missing_cache_nothing_to_do (self : downloader) (w : world)
    (fs : gmap string bytes) :
  emulator self = "pcsx2" ∨ emulator self = "duckstation" →
  texts w !! gamelist_dir self = None →
  download self w fs
  = Outcome None
      ((get_name_list self w).1
       ++ [Print red "[ERROR]: gamelist.cache file not found";
           Print green "[LOG]: All covers have already been downloaded"])
      fs.
Proof.
  intros Hemu Hcache.
  assert (∃ p, covers_urls (emulator self) = Some p) as [p Hp].
  { unfold covers_urls. destruct Hemu as [-> | ->]; eauto. }
  assert (get_serial_list w (gamelist_dir self) (existing_covers self fs)
          = ([Print red "[ERROR]: gamelist.cache file not found"], []))
    as Hs by (unfold get_serial_list; by rewrite Hcache).
  rewrite (EarlyExit.download_nothing self w fs p) by (by rewrite ?Hs).
  by rewrite Hs.
Qed.

(** * Facts about the requested URLs and the name lookup *)

Module Requests.
Import StrFacts ReFacts PassFacts UrlFacts RunFacts CoverFacts WholeRun RunFiles.

Lemma path_name_spec_url t st enc s :
  fullmatch SERIAL_RE s = true →
  path_name (spec_url t st enc s) = s +:+ "." +:+ style_ext st.
Proof.
  intros Hs. destruct (cover_name_facts st s Hs) as (? & ? & ? & _).
  unfold spec_url, candidate_url, downgrade.
  destruct enc; [by apply path_name_join|].
  destruct (repository_root_https t st) as (rest & -> & _).
  rewrite app_assoc, strip_prefix_app, <- app_assoc.
  by apply path_name_join.
Qed.

Lemma spec_url_inj t st st' enc s s' :
  fullmatch SERIAL_RE s = true → fullmatch SERIAL_RE s' = true →
  spec_url t st enc s = spec_url t st' enc s' → s = s' ∧ st = st'.
Proof.
  intros Hs Hs' Heq.
  assert (s = s') as <-.
  { rewrite <- (path_stem_spec_url t st enc s Hs), Heq.
    by apply path_stem_spec_url. }
  split; [done|].
  apply (f_equal path_name) in Heq.
  rewrite !path_name_spec_url in Heq by done.
  apply (inj (String.app _)) in Heq. by destruct st, st'.
Qed.

Lemma prefix_cons_ne a b p s :
  a ≠ b → String.prefix (String a p) (String b s) = false.
Proof. intros Hab. simpl. by destruct (ascii_dec a b). Qed.

Lemma prefix_cons_eq a p s :
  String.prefix (String a p) (String a s) = String.prefix p s.
Proof. simpl. by destruct (ascii_dec a a). Qed.

(** The scheme of a requested URL follows the transport flag. *)
Lemma spec_url_scheme t st enc s :
  String.prefix "https://" (spec_url t st enc s) = enc
  ∧ String.prefix "http://" (spec_url t st enc s) = negb enc.
Proof.
  unfold spec_url, candidate_url, downgrade.
  destruct (repository_root_https t st) as (rest & -> & _).
  rewrite app_assoc. destruct enc.
  - split; [apply prefix_app|].
    generalize (rest +:+ "/" +:+ s +:+ "." +:+ style_ext st). intros r.
    change ("https://" +:+ r) with (String "h" (String "t" (String "t"
      (String "p" (String "s" ("://" +:+ r)))))).
    rewrite !prefix_cons_eq. by apply prefix_cons_ne.
  - rewrite strip_prefix_app. split; [|apply prefix_app].
    generalize (rest +:+ "/" +:+ s +:+ "." +:+ style_ext st). intros r.
    change ("http://" +:+ r) with (String "h" (String "t" (String "t"
      (String "p" (String ":" ("//" +:+ r)))))).
    rewrite !prefix_cons_eq. by apply prefix_cons_ne.
Qed.

Lemma filter_not_in_nil (l : list string) : filter (λ s, s ∉ []) l = l.
Proof.
  induction l as [|x l IH]; [done|].
  rewrite filter_cons_True by apply not_elem_of_nil. by rewrite IH.
Qed.

Lemma work_length w path existing :
  length (get_serial_list w path existing).2
  ≤ length (get_serial_list w path []).2.
Proof.
  unfold get_serial_list. destruct (texts w !! path); simpl; [|done].
  rewrite filter_not_in_nil. apply length_filter.
Qed.

Lemma count_absent (l : list string) (s : string) :
  s ∉ l → length (filter (λ x, x = s) l) = 0.
Proof.
  induction l as [|x l IH]; [done|]. intros Hs.
  apply not_elem_of_cons in Hs as [? ?].
  rewrite filter_cons_False by done. by apply IH.
Qed.

(** A list without repetition holds a serial at most once. *)
Lemma count_NoDup (l : list string) (s : string) :
  NoDup l → length (filter (λ x, x = s) l) ≤ 1.
Proof.
  induction 1 as [|x l Hx _ IH]; [simpl; lia|]. rewrite filter_cons.
  destruct (decide (x = s)) as [->|]; [|done].
  simpl. by rewrite count_absent.
Qed.

(** Counting the URLs of a serial is counting the serial. *)
Lemma count_stem (f : string → string) (l : list string) (s : string) :
  (∀ x, x ∈ l → path_stem (f x) = x) →
  length (filter (λ u, path_stem u = s) (f <$> l))
  = length (filter (λ x, x = s) l).
Proof.
  induction l as [|x l IH]; intros Hf; [done|].
  rewrite fmap_cons, !filter_cons, (Hf x) by (by left).
  assert (length (filter (λ u, path_stem u = s) (f <$> l))
          = length (filter (λ x, x = s) l)) as Hl.
  { apply IH. intros y Hy. apply Hf. by right. }
  destruct (decide (x = s)); simpl; by rewrite Hl.
Qed.

(** What [download_covers] runs. *)
Lemma download_covers_run cd gd ct ssl emu fb w fs :
  (∃ c, download_covers cd gd ct ssl emu fb w fs
        = download (Downloader c cd gd ct ssl emu fb) w fs)
  ∨ download_covers cd gd ct ssl emu fb w fs
    = Outcome None [Print red ("[ERROR]: Invalid emulator: " +:+ emu)] fs.
Proof.
  unfold download_covers.
  destruct (decide (emu = "pcsx2")); [left; by eexists|].
  destruct (decide (emu = "duckstation")); [left; by eexists|]. by right.
Qed.

(** The name [gamedb.json] gives a serial is that of its last item. *)
Lemma gamedb_lookup (items : list db_item) (m : gmap string string) s :
  foldl (λ m item, <[item_serial item := item_name item]> m) m items !! s
  = match last (filter (λ item, item_serial item = s) items) with
    | Some item => Some (item_name item)
    | None => m !! s
    end.
Proof.
  revert m. induction items as [|item items IH]; intros m; [done|].
  simpl. rewrite IH, filter_cons.
  destruct (decide (item_serial item = s)) as [Heq|Hne].
  - rewrite last_cons.
    destruct (last (filter _ items)); [done|].
    by rewrite <- Heq, lookup_insert_eq.
  - destruct (last (filter _ items)); [done|]. by rewrite lookup_insert_ne.
Qed.

End Requests.

(** X9. A call of [download_covers] makes at most two requests for any
    serial, and at most one when fallback is disabled; every request is for
    a serial of the cache file, so that there are at most twice as many
    requests as distinct serials in the file (as many, without fallback);
    for an emulator it does not know it makes none. The requests of a
    serial are those whose URL has the serial as its stem. *)
Theorem at_most_two_requests_per_serial (cd gd : string)
    (ct : Z) (ssl : bool) (emu : string) (fb : bool)
    (w : world) (fs : gmap string bytes) :
  let requests :=
    gets (trace (download_covers cd gd ct ssl emu fb w fs)) in
  let serials := (get_serial_list w gd []).2 in
  (∀ s, length (filter (λ url, path_stem url = s) requests) ≤ 2)
  ∧ (fb = false →
     ∀ s, length (filter (λ url, path_stem url = s) requests) ≤ 1)
  ∧ (∀ url, url ∈ requests → path_stem url ∈ serials)
  ∧ length requests ≤ 2 * length serials
  ∧ (fb = false → length requests ≤ length serials)
  ∧ (emu ≠ "pcsx2" → emu ≠ "duckstation" → requests = []).
Proof.
  intros requests serials. subst requests serials.
  assert (emu ≠ "pcsx2" → emu ≠ "duckstation" →
          gets (trace (download_covers cd gd ct ssl emu fb w fs)) = [])
    as Hunknown.
  { intros H1 H2. unfold download_covers. by rewrite !decide_False. }
  destruct (Requests.download_covers_run cd gd ct ssl emu fb w fs)
    as [[c Hrun]|Hrun]; rewrite Hrun in *;
    [|simpl; split_and!; try done; try lia;
      by intros ? ?%elem_of_nil].
  set (d := Downloader c cd gd ct ssl emu fb) in *.
  pose proof (Requests.work_length w gd (existing_covers d fs)) as Hlen.
  destruct (RunFiles.download_cases d w fs) as [[Hnil _]|(t & st & Hemu & Hst)].
  { rewrite Hnil in *. simpl.
    split_and!; try done; try lia. by intros ? ?%elem_of_nil. }
  rewrite (RunFacts.download_gets d w fs t st Hemu Hst) in *.
  change (gamelist_dir d) with gd in *. change (fallback d) with fb in *.
  change (use_ssl d) with ssl in *.
  pose proof (WholeRun.work_fullmatch d w fs) as Hfull.
  pose proof (RunFiles.work_NoDup w gd (existing_covers d fs)) as Hnd.
  change (gamelist_dir d) with gd in Hfull.
  set (work := (get_serial_list w gd (existing_covers d fs)).2) in *.
  set (failures :=
         filter (λ s, fetch_ok w (spec_url t st ssl s) = false) work) in *.
  assert (∀ s, s ∈ work → fullmatch SERIAL_RE s = true) as Hf
    by (by apply Forall_forall).
  assert (∀ s, s ∈ failures → s ∈ work) as Hsub
    by (by intros s [_ ?]%list_elem_of_filter).
  assert (length failures ≤ length work) as Hfl by apply length_filter.
  assert (∀ st' s,
            length (filter (λ url, path_stem url = s)
                      (spec_url t st' ssl <$> work)) ≤ 1) as Hone.
  { intros st' s. rewrite Requests.count_stem.
    - by apply Requests.count_NoDup.
    - intros x Hx. apply UrlFacts.path_stem_spec_url. by apply Hf. }
  assert (∀ st' s,
            length (filter (λ url, path_stem url = s)
                      (spec_url t st' ssl <$> failures)) ≤ 1) as Hone'.
  { intros st' s. rewrite Requests.count_stem.
    - by apply Requests.count_NoDup, NoDup_filter.
    - intros x Hx. apply UrlFacts.path_stem_spec_url. by apply Hf, Hsub. }
  split_and!.
  - intros s. rewrite filter_app, length_app.
    pose proof (Hone st s). destruct fb; [|simpl; lia].
    pose proof (Hone' (other_style st) s). lia.
  - intros -> s. rewrite filter_app, length_app. simpl.
    pose proof (Hone st s). lia.
  - intros url Hurl.
    assert (∃ st' s, s ∈ work ∧ url = spec_url t st' ssl s)
      as (st' & s & Hs & ->).
    { apply elem_of_app in Hurl as [Hurl|Hurl].
      - apply list_elem_of_fmap in Hurl as (s & -> & ?). eauto.
      - destruct fb; [|by apply elem_of_nil in Hurl].
        apply list_elem_of_fmap in Hurl as (s & -> & ?). eauto. }
    rewrite UrlFacts.path_stem_spec_url by (by apply Hf).
    by apply RunFiles.work_elem in Hs as [? _].
  - rewrite length_app, length_fmap.
    destruct fb; [rewrite length_fmap|simpl]; lia.
  - intros ->. rewrite length_app, length_fmap. simpl. lia.
  - exact Hunknown.
Qed.

(** X10. A call of [download_covers] requests no URL twice. *)
Theorem no_url_requested_twice (cd gd : string)
    (ct : Z) (ssl : bool) (emu : string) (fb : bool)
    (w : world) (fs : gmap string bytes) :
  NoDup (gets (trace (download_covers cd gd ct ssl emu fb w fs))).
Proof.
  destruct (Requests.download_covers_run cd gd ct ssl emu fb w fs) as [[c ->]| ->]; [|apply NoDup_nil_2].
  set (d := Downloader c cd gd ct ssl emu fb).
  destruct (RunFiles.download_cases d w fs) as [[-> _]|(t & st & Hemu & Hst)];
    [apply NoDup_nil_2|].
  rewrite (RunFacts.download_gets d w fs t st Hemu Hst).
  pose proof (WholeRun.work_fullmatch d w fs) as Hfull.
  pose proof (RunFiles.work_NoDup w (gamelist_dir d) (existing_covers d fs))
    as Hnd.
  set (work := (get_serial_list w (gamelist_dir d) (existing_covers d fs)).2)
    in *.
  assert (∀ s, s ∈ work → fullmatch SERIAL_RE s = true) as Hf
    by (by apply Forall_forall).
  apply NoDup_app. split_and!.
  - apply NoDup_fmap_2_strong; [|done]. intros s s' Hs Hs' Heq.
    by apply (Requests.spec_url_inj t st st _ s s') in Heq as [? _]; auto.
  - intros url (s & -> & Hs)%list_elem_of_fmap Hin.
    destruct (fallback d); [|by apply elem_of_nil in Hin].
    apply list_elem_of_fmap in Hin as (s' & Heq & [_ Hs']%list_elem_of_filter).
    apply Requests.spec_url_inj in Heq as [_ Hstyle]; auto.
    by destruct st.
  - destruct (fallback d); [|apply NoDup_nil_2].
    apply NoDup_fmap_2_strong; [|by apply NoDup_filter].
    intros s s' [_ Hs]%list_elem_of_filter [_ Hs']%list_elem_of_filter Heq.
    by apply Requests.spec_url_inj in Heq as [? _]; auto.
Qed.

(** X11. In a run with something to do, every work item is reported on
    exactly one line after the two log lines: the line [serial | name] when
    its first request succeeds; the line with [(fallback)] when fallback is
    enabled, the first request fails and the fallback request succeeds; the
    line "not found. Skipping..." otherwise. *)
Theorem every_work_item_reported_once (self : downloader) (w : world)
    (fs : gmap string bytes) (t : emulator_target) (st : cover_style) :
  emulator self = target_name t → cover_type self = style_code st →
  let enc := use_ssl self in
  let work :=
    (get_serial_list w (gamelist_dir self) (existing_covers self fs)).2 in
  let name s := format_name (serial_to_name (get_name_list self w).2 s) in
  let found :=
    (λ s, (green, s +:+ " | " +:+ name s))
      <$> filter (λ s, fetch_ok w (spec_url t st enc s) = true) work in
  let others :=
    (λ s, if fallback self
             && fetch_ok w (spec_url t (other_style st) enc s)
          then (green, s +:+ " | " +:+ name s +:+ " (fallback)")
          else (yellow, "[" +:+ s +:+ " | " +:+ name s
                        +:+ "] not found. Skipping..."))
      <$> filter (λ s, fetch_ok w (spec_url t st enc s) = false) work in
  work ≠ [] →
  lines (trace (download self w fs))
  = lines (get_name_list self w).1
    ++ lines (get_serial_list w (gamelist_dir self) (existing_covers self fs)).1
    ++ found ++ others
  ∧ length (found ++ others) = length work.
Proof.
  intros Hemu Hst enc work name found others Hne. split.
  - rewrite (WholeRun.download_known self w fs t st) by done. simpl.
    rewrite !Reports.lines_app, PassFacts.run_pool_events, Reports.lines_Get.
    rewrite (WholeRun.primary_lines self w fs t st).
    rewrite Reports.after_primary_lines. simpl. f_equal. f_equal.
    fold work enc. f_equal.
    + subst found. generalize (filter
        (λ s, fetch_ok w (spec_url t st enc s) = true) work). intros l.
      induction l as [|s l IH]; [done|]. simpl. by f_equal.
    + subst others.
      pose proof (WholeRun.failures_fullmatch self w fs t st) as Hfail.
      rewrite <- list_fmap_compose. apply Forall_fmap_ext.
      eapply Forall_impl; [exact Hfail|]. intros s Hs. simpl.
      rewrite (Reports.fallback_source_style self t st Hst).
      by rewrite UrlFacts.requested_candidate.
  - subst found others. rewrite length_app, !length_fmap.
    apply (Reports.length_filter_bool
             (λ s, fetch_ok w (spec_url t st enc s))).
Qed.

(** X12. The DuckStation name list gives a serial the name of the last item
    of [gamedb.json] with that serial, and nothing ([None]) for a serial no
    item has. *)
Theorem gamedb_last_item_wins (self : downloader) (w : world)
    (gameindex : list db_item) (s : string) :
  cls self = DuckStationCoverDownloader → gamedb_json w = Some gameindex →
  serial_to_name (get_name_list self w).2 s
  = item_name <$> last (filter (λ item, item_serial item = s) gameindex).
Proof.
  intros Hcls Hdb. unfold serial_to_name, get_name_list.
  rewrite Hcls, Hdb. simpl. rewrite Requests.gamedb_lookup.
  by destruct (last _).
Qed.

(** X13. The transport flag is honoured by every request of a run: with
    [use_ssl] all requested URLs start with [https://], without it all
    start with [http://] and none with [https://]. *)
Theorem transport_flag_honoured (self : downloader) (w : world)
    (fs : gmap string bytes) (url : string) :
  url ∈ gets (trace (download self w fs)) →
  String.prefix "https://" url = use_ssl self
  ∧ String.prefix "http://" url = negb (use_ssl self).
Proof.
  intros Hurl.
  destruct (RunFiles.download_cases self w fs)
    as [[Hnil _]|(t & st & Hemu & Hst)].
  { rewrite Hnil in Hurl. by apply elem_of_nil in Hurl. }
  rewrite (RunFacts.download_gets self w fs t st Hemu Hst) in Hurl.
  apply elem_of_app in Hurl as [Hurl|Hurl].
  - apply list_elem_of_fmap in Hurl as (s & -> & _).
    apply Requests.spec_url_scheme.
  - destruct (fallback self); [|by apply elem_of_nil in Hurl].
    apply list_elem_of_fmap in Hurl as (s & -> & _).
    apply Requests.spec_url_scheme.
Qed.

(** * The further properties at the sample runs *)

Lemma cover_url_names_serial_witness :
  fullmatch SERIAL_RE "SLUS-20312" = true
  ∧ (".jpg" = ".jpg" ∨ ".jpg" = ".png")
  ∧ path_stem (PS2_COVERS_URL_DEFAULT +:+ "/" +:+ "SLUS-20312" +:+ ".jpg")
    = "SLUS-20312".
Proof.
  split; [reflexivity|]. split; [left; reflexivity|].
  exact (proj1 (cover_url_names_serial PS2_COVERS_URL_DEFAULT "covers"
                  "SLUS-20312" ".jpg" eq_refl (or_introl eq_refl))).
Defined.

Lemma fetched_cover_is_existing_witness :
  fullmatch SERIAL_RE "SLUS-20312" = true
  ∧ remote Sample.w (spec_url Pcsx2 Flat (use_ssl Sample.pcsx2_flat) "SLUS-20312")
    = Response 200 [Byte.xff; Byte.xd8; Byte.xff]
  ∧ "SLUS-20312"
      ∈ existing_covers Sample.pcsx2_flat
          (download_cover Sample.pcsx2_flat Sample.w
             (candidate_url Pcsx2 Flat "SLUS-20312")
             (joinpath (cover_dir Sample.pcsx2_flat)
                (path_name (candidate_url Pcsx2 Flat "SLUS-20312")))
             ∅).2.
Proof.
  split; [reflexivity|]. split; [reflexivity|].
  exact (proj1 (proj2
           (fetched_cover_is_existing Sample.pcsx2_flat Sample.w ∅ Pcsx2 Flat
              "SLUS-20312" [Byte.xff; Byte.xd8; Byte.xff] eq_refl eq_refl))).
Defined.

Lemma second_run_work_list_witness :
  emulator Sample.pcsx2_flat = target_name Pcsx2
  ∧ cover_type Sample.pcsx2_flat = style_code Flat
  ∧ ("SCUS-97101"
       ∈ (get_serial_list Sample.w (gamelist_dir Sample.pcsx2_flat)
            (existing_covers Sample.pcsx2_flat
               (fs_after (download Sample.pcsx2_flat Sample.w ∅)))).2
     ↔ "SCUS-97101"
         ∈ (get_serial_list Sample.w (gamelist_dir Sample.pcsx2_flat)
              (existing_covers Sample.pcsx2_flat ∅)).2
       ∧ fetch_ok Sample.w
           (spec_url Pcsx2 Flat (use_ssl Sample.pcsx2_flat) "SCUS-97101")
         = false
       ∧ (fallback Sample.pcsx2_flat = true →
          fetch_ok Sample.w
            (spec_url Pcsx2 Box3D (use_ssl Sample.pcsx2_flat) "SCUS-97101")
          = false)).
Proof.
  split; [reflexivity|]. split; [reflexivity|].
  exact (second_run_work_list Sample.pcsx2_flat Sample.w ∅ Pcsx2 Flat
           eq_refl eq_refl "SCUS-97101").
Defined.

Lemma download_keeps_existing_files_witness :
  ({["covers/notes.txt" := [Byte.x68; Byte.x69]]} : gmap string bytes)
    !! "covers/notes.txt" = Some [Byte.x68; Byte.x69]
  ∧ fs_after (download Sample.pcsx2_flat Sample.w
                {["covers/notes.txt" := [Byte.x68; Byte.x69]]})
      !! "covers/notes.txt" = Some [Byte.x68; Byte.x69].
Proof.
  split; [reflexivity|].
  exact (download_keeps_existing_files Sample.pcsx2_flat Sample.w
           {["covers/notes.txt" := [Byte.x68; Byte.x69]]}
           "covers/notes.txt" [Byte.x68; Byte.x69] eq_refl).
Defined.

Lemma download_creates_fetched_covers_witness :
  emulator Sample.pcsx2_flat = target_name Pcsx2
  ∧ cover_type Sample.pcsx2_flat = style_code Flat
  ∧ is_Some (fs_after (download Sample.pcsx2_flat Sample.w ∅)
               !! "covers/SCUS-97101.png").
Proof.
  split; [reflexivity|]. split; [reflexivity|].
  apply (proj2 (download_creates_fetched_covers Sample.pcsx2_flat Sample.w ∅
                  Pcsx2 Flat eq_refl eq_refl "covers/SCUS-97101.png")).
  right. exists "SCUS-97101". split.
  - vm_compute. right. left.
  - right. split_and!; reflexivity.
Defined.

Lemma missing_cache_nothing_to_do_witness :
  (emulator Sample.pcsx2_flat = "pcsx2"
   ∨ emulator Sample.pcsx2_flat = "duckstation")
  ∧ texts Sample.w_no_cache !! gamelist_dir Sample.pcsx2_flat = None
  ∧ download Sample.pcsx2_flat Sample.w_no_cache ∅
    = Outcome None
        [Print red "[ERROR]: GameIndex.yaml file not found";
         Print red "[ERROR]: gamelist.cache file not found";
         Print green "[LOG]: All covers have already been downloaded"]
        ∅.
Proof.
  split; [left; reflexivity|]. split; [reflexivity|].
  exact (missing_cache_nothing_to_do Sample.pcsx2_flat Sample.w_no_cache ∅
           (or_introl eq_refl) eq_refl).
Defined.

Lemma every_work_item_reported_once_witness :
  emulator Sample.pcsx2_flat = target_name Pcsx2
  ∧ cover_type Sample.pcsx2_flat = style_code Flat
  ∧ (get_serial_list Sample.w (gamelist_dir Sample.pcsx2_flat)
       (existing_covers Sample.pcsx2_flat ∅)).2 ≠ []
  ∧ lines (trace (download Sample.pcsx2_flat Sample.w ∅))
    = [(red, "[ERROR]: GameIndex.yaml file not found");
       (green, "[LOG]: 2 games found");
       (green, "[LOG]: Removing already downloaded covers from queue...");
       (green, "SLUS-20312 | None");
       (green, "SCUS-97101 | None (fallback)")].
Proof.
  assert ((get_serial_list Sample.w (gamelist_dir Sample.pcsx2_flat)
             (existing_covers Sample.pcsx2_flat ∅)).2 ≠ []) as Hne
    by (vm_compute; discriminate).
  split; [reflexivity|]. split; [reflexivity|]. split; [exact Hne|].
  exact (proj1 (every_work_item_reported_once Sample.pcsx2_flat Sample.w ∅
                  Pcsx2 Flat eq_refl eq_refl Hne)).
Defined.

Lemma gamedb_last_item_wins_witness :
  cls Sample.duck_plain = DuckStationCoverDownloader
  ∧ gamedb_json Sample.w_duck = Some Sample.gamedb
  ∧ serial_to_name (get_name_list Sample.duck_plain Sample.w_duck).2 "SLUS-00594"
    = Some "Metal Gear Solid".
Proof.
  split; [reflexivity|]. split; [reflexivity|].
  exact (gamedb_last_item_wins Sample.duck_plain Sample.w_duck Sample.gamedb
           "SLUS-00594" eq_refl eq_refl).
Defined.

Lemma transport_flag_honoured_witness :
  "http://raw.githubusercontent.com/xlenore/psx-covers/main/covers/default/SLUS-00594.jpg"
    ∈ gets (trace (download Sample.duck_plain Sample.w_duck ∅))
  ∧ String.prefix "https://"
      "http://raw.githubusercontent.com/xlenore/psx-covers/main/covers/default/SLUS-00594.jpg"
    = use_ssl Sample.duck_plain.
Proof.
  assert ("http://raw.githubusercontent.com/xlenore/psx-covers/main/covers/default/SLUS-00594.jpg"
            ∈ gets (trace (download Sample.duck_plain Sample.w_duck ∅))) as H
    by (vm_compute; left).
  split; [exact H|].
  exact (proj1 (transport_flag_honoured Sample.duck_plain Sample.w_duck ∅ _ H)).
Defined.
